(** * ThreadBundle (taskflow/utils/threading_utils.py)

    A shallow embedding of [ThreadBundle]: a list of slots
    [[builder, thread, started]] that [bind] grows, [start] walks in
    insertion order and [stop] walks in reverse order, calling user
    callbacks around every transition.

    Modelling choices.
    - User code (the thread factory, the four hooks, [thread.start()] and
      [thread.join()]) is arbitrary: each call transforms an abstract
      external [World] and either returns or raises.
    - Every call the bundle makes to user code is recorded as an [event]
      (which call, for which slot index, on which thread, with which
      outcome); the events of an operation are returned in the order in
      which the calls were made.
    - A slot is the mutable Python list [[builder, thread, started]]; an
      exception leaves every assignment made before it in place, so the
      state is returned next to the exception, not instead of it.
    - A thread handle is an object of default truthiness (as
      [threading.Thread] is); [None] is the only falsy value a slot holds.
    - The lock is not modelled: the operations are run one after the other,
      and callbacks have no access to the bundle (the docstring of [bind]
      forbids re-entering it). *)

From stdpp Require Import base list sets sorting strings.

(** ** Exceptions *)

Inductive exn : Type :=
  | ValueError (attr_name : string)
  | TypeError
  | AttributeError
  | IndexError
  | UserError (code : nat).

(** The calls the bundle makes into user code. *)
Inductive call : Type :=
  | Factory | BeforeStart | ThreadStart | AfterStart
  | BeforeJoin | ThreadJoin | AfterJoin.

(** One call into user code: the call, the index of the slot it was made
    for, the identity of the thread involved (the thread returned, for
    [Factory]; the thread passed or acted on, otherwise) and the exception
    it raised, if any. *)
Record event : Type := Ev {
  ev_call : call;
  ev_slot : nat;
  ev_thread : option nat;
  ev_exn : option exn;
}.

#[global] Instance exn_eq_dec : EqDecision exn.
Proof. solve_decision. Defined.
#[global] Instance call_eq_dec : EqDecision call.
Proof. solve_decision. Defined.
#[global] Instance event_eq_dec : EqDecision event.
Proof. solve_decision. Defined.

(** A Python argument that is expected to be a callable of type [F]: it is
    [None], some object that is not callable, or a callable. *)
Inductive pyarg (F : Type) : Type :=
  | PyNone
  | PyNotCallable
  | PyCallable (f : F).
Arguments PyNone {F}.
Arguments PyNotCallable {F}.
Arguments PyCallable {F} f.

(** What [bind] looks at in an argument. *)
Inductive shape : Type := IsNone | IsNotCallable | IsCallable.

Definition shape_of {F} (a : pyarg F) : shape :=
  match a with
  | PyNone => IsNone
  | PyNotCallable => IsNotCallable
  | PyCallable _ => IsCallable
  end.

(** [cb is None] *)
Definition is_none (cb : shape) : bool :=
  match cb with IsNone => true | _ => false end.

(** [six.callable(cb)] *)
Definition callable (cb : shape) : bool :=
  match cb with IsCallable => true | _ => false end.

(** The attribute names of [_ThreadBuilder]. *)
Inductive attr : Type :=
  | a_thread_factory | a_before_start | a_after_start
  | a_before_join | a_after_join.

Definition attr_name (a : attr) : string :=
  match a with
  | a_thread_factory => "thread_factory"
  | a_before_start => "before_start"
  | a_after_start => "after_start"
  | a_before_join => "before_join"
  | a_after_join => "after_join"
  end.

(** [_ThreadBuilder.callables]: attribute name -> none allowed as a valid
    value. *)
Definition callables : list (attr * bool) :=
  [ (a_thread_factory, false);
    (a_before_start, true);
    (a_after_start, true);
    (a_before_join, true);
    (a_after_join, true) ].

(** The error [bind] raises for an offending argument. *)
Definition not_callable (a : attr) : exn :=
  ValueError ("Provided callback for argument '" +:+ attr_name a +:+
              "' must be callable").

Section ThreadBundle.

Context {World : Type}.

(** A call into user code: the world after it, and what it returned or
    raised. *)
Definition effect (A : Type) : Type := World → World * (exn + A).

(** A thread handle: an object with an identity and the two methods the
    bundle calls. *)
Record Thread : Type := {
  ident : nat;
  start_method : effect unit;
  join_method : effect unit;
}.

(** [thread_factory()] returns a thread handle (or [None]); a hook is
    called with the slot's thread. *)
Definition FactoryFn : Type := effect (option Thread).
Definition HookFn : Type := option Thread → effect unit.

(** [_ThreadBuilder]: the namedtuple holding what was given to [bind]. *)
Record ThreadBuilder : Type := {
  thread_factory : pyarg FactoryFn;
  before_start : pyarg HookFn;
  after_start : pyarg HookFn;
  before_join : pyarg HookFn;
  after_join : pyarg HookFn;
}.

(** One element of [self._threads]: the list
    [[builder, thread, started]]. *)
Record slot : Type := Slot {
  builder : ThreadBuilder;
  thread : option Thread;
  started : bool;
}.

(** Python truthiness of the [thread] entry. *)
Definition truthy (t : option Thread) : bool :=
  match t with Some _ => true | None => false end.

Definition id_of (t : option Thread) : option nat := ident <$> t.

(** ** State, events and exceptions

    A computation over a mutable state [S]: it returns the state and the
    world it leaves behind and the events it produced, together with its
    value or the exception it raised. *)
Record res (S A : Type) : Type := Res {
  r_state : S;
  r_world : World;
  r_events : list event;
  r_value : exn + A;
}.
Arguments Res {S A} _ _ _ _.
Arguments r_state {S A} _.
Arguments r_world {S A} _.
Arguments r_events {S A} _.
Arguments r_value {S A} _.

Definition M (S A : Type) : Type := S → World → res S A.

Definition ret {S A} (a : A) : M S A := λ s w, Res s w [] (inr a).

Definition raise {S A} (e : exn) : M S A := λ s w, Res s w [] (inl e).

Definition bindM {S A B} (m : M S A) (k : A → M S B) : M S B := λ s w,
  match m s w with
  | Res s1 w1 ev1 (inl e) => Res s1 w1 ev1 (inl e)
  | Res s1 w1 ev1 (inr a) =>
      match k a s1 w1 with
      | Res s2 w2 ev2 v => Res s2 w2 (ev1 ++ ev2) v
      end
  end.

(** [try: m finally: fin]: [fin] runs whether or not [m] raised; the
    exception of [m] propagates afterwards unless [fin] raises itself. *)
Definition try_finally {S A} (m : M S A) (fin : M S unit) : M S A := λ s w,
  match m s w with
  | Res s1 w1 ev1 v =>
      match fin s1 w1 with
      | Res s2 w2 ev2 (inl e) => Res s2 w2 (ev1 ++ ev2) (inl e)
      | Res s2 w2 ev2 (inr _) => Res s2 w2 (ev1 ++ ev2) v
      end
  end.

Definition modify {S} (f : S → S) : M S unit := λ s w, Res (f s) w [] (inr tt).

(** A call into user code, recorded as one event. *)
Definition perform {S A} (mk : exn + A → event) (f : effect A) : M S A := λ s w,
  let '(w', v) := f w in Res s w' [mk v] v.

Definition exn_of {A} (v : exn + A) : option exn :=
  match v with inl e => Some e | inr _ => None end.

Notation "'let*' x ':=' m 'in' k" := (bindM m (λ x, k))
  (at level 10, x pattern, m at level 100, k at level 200,
   format "'let*'  x  ':='  m  'in' '//' k").
Notation "m ';;;' k" := (bindM m (λ _, k))
  (at level 100, k at level 200, right associativity,
   format "m  ';;;' '//' k").

(** Calling a Python value: a value that is not callable raises
    [TypeError]. *)
Definition py_call {A} (a : pyarg (effect A)) : effect A :=
  match a with
  | PyCallable f => f
  | _ => λ w, (w, inl TypeError)
  end.

(** [builder.thread_factory()] *)
Definition call_factory (i : nat) (b : ThreadBuilder) : M slot (option Thread) :=
  perform
    (λ v, Ev Factory i (match v with inr t => id_of t | inl _ => None end)
             (exn_of v))
    (py_call (thread_factory b)).

(** [ThreadBundle._trigger_callback]:
    [if callback is not None: callback(thread)]. *)
Definition _trigger_callback (c : call) (i : nat)
    (callback : pyarg HookFn) (t : option Thread) : M slot unit :=
  match callback with
  | PyNone => ret tt
  | PyNotCallable =>
      perform (λ v, Ev c i (id_of t) (exn_of v)) (λ w, (w, inl TypeError))
  | PyCallable f =>
      perform (λ v, Ev c i (id_of t) (exn_of v)) (f t)
  end.

(** [thread.start()]; on [None] the attribute lookup raises. *)
Definition thread_start (i : nat) (t : option Thread) : M slot unit :=
  perform (λ v, Ev ThreadStart i (id_of t) (exn_of v))
    (match t with
     | Some th => start_method th
     | None => λ w, (w, inl AttributeError)
     end).

(** [thread.join()] *)
Definition thread_join (i : nat) (t : option Thread) : M slot unit :=
  perform (λ v, Ev ThreadJoin i (id_of t) (exn_of v))
    (match t with
     | Some th => join_method th
     | None => λ w, (w, inl AttributeError)
     end).

(** [self._threads[i][1] = x] and [self._threads[i][2] = x], as
    assignments to the slot object of index [i]. *)
Definition set_thread (t : option Thread) : M slot unit :=
  modify (λ s, Slot (builder s) t (started s)).
Definition set_started (b : bool) : M slot unit :=
  modify (λ s, Slot (builder s) (thread s) b).

(** ** [ThreadBundle.start], the body of the loop

    Run on slot [i], whose contents were unpacked into
    [(builder, thread, started)]; returns the new [count]. *)
Definition start_body (i : nat) (count : nat) : M slot nat := λ s,
  let '(Slot builder thread started) := s in
  (if truthy thread && started then
     (* continue *)
     ret count
   else
     let* thread :=
       (if negb (truthy thread) then
          let* t := call_factory i builder in
          set_thread t ;;;
          ret t
        else ret thread) in
     _trigger_callback BeforeStart i (before_start builder) thread ;;;
     thread_start i thread ;;;
     let count := count + 1 in
     try_finally
       (_trigger_callback AfterStart i (after_start builder) thread)
       (set_started true) ;;;
     ret count) s.

(** ** [ThreadBundle.stop], the body of the loop *)
Definition stop_body (i : nat) (count : nat) : M slot nat := λ s,
  let '(Slot builder thread started) := s in
  (if negb (truthy thread) || negb started then
     (* continue *)
     ret count
   else
     _trigger_callback BeforeJoin i (before_join builder) thread ;;;
     thread_join i thread ;;;
     let count := count + 1 in
     try_finally
       (_trigger_callback AfterJoin i (after_join builder) thread)
       (set_thread None ;;; set_started false) ;;;
     ret count) s.

(** ** The loops

    [for i, (builder, thread, started) in it: body], where [it] yields the
    slots of [self._threads] with their indices.  The slot yielded for
    index [i] is the object [self._threads[i]] itself, so it is read when
    it is reached and what the body assigns is seen in [self._threads]. *)
Fixpoint walk (body : nat → nat → M slot nat) (it : list nat) (count : nat)
    : M (list slot) nat := λ ts w,
  match it with
  | [] => Res ts w [] (inr count)
  | i :: it' =>
      match ts !! i with
      | None => Res ts w [] (inl IndexError)
      | Some s =>
          match body i count s w with
          | Res s1 w1 ev1 (inl e) => Res (<[i := s1]> ts) w1 ev1 (inl e)
          | Res s1 w1 ev1 (inr count') =>
              match walk body it' count' (<[i := s1]> ts) w1 with
              | Res ts2 w2 ev2 v => Res ts2 w2 (ev1 ++ ev2) v
              end
          end
      end
  end.

(** The indices [enumerate(self._threads)] yields. *)
Definition enumerate (ts : list slot) : list nat := seq 0 (length ts).

(** Modelled from the spec: [misc.reverse_enumerate] (taskflow/utils/misc.py
    is not part of the sources at hand); section 4.3 has [stop] visit the
    slots in reverse insertion order, last-bound first, so it yields the
    indices of [enumerate] from the last to the first. *)
Definition reverse_enumerate (ts : list slot) : list nat :=
  reverse (seq 0 (length ts)).

(** [ThreadBundle.start] *)
Definition start : M (list slot) nat := λ ts,
  walk start_body (enumerate ts) 0 ts.

(** [ThreadBundle.stop] *)
Definition stop : M (list slot) nat := λ ts,
  walk stop_body (reverse_enumerate ts) 0 ts.

(** ** [ThreadBundle.bind] *)

(** [getattr(builder, attr_name)], as far as the validation looks at it. *)
Definition getattr (b : ThreadBuilder) (a : attr) : shape :=
  match a with
  | a_thread_factory => shape_of (thread_factory b)
  | a_before_start => shape_of (before_start b)
  | a_after_start => shape_of (after_start b)
  | a_before_join => shape_of (before_join b)
  | a_after_join => shape_of (after_join b)
  end.

(** The validation loop of [bind]: the first offending attribute, if
    any. *)
Fixpoint validate (b : ThreadBuilder) (cs : list (attr * bool)) : option attr :=
  match cs with
  | [] => None
  | (a, none_allowed) :: cs' =>
      let cb := getattr b a in
      if is_none cb && none_allowed then
        (* continue *)
        validate b cs'
      else if negb (callable cb) then
        (* raise ValueError *)
        Some a
      else validate b cs'
  end.

Definition bind (b : ThreadBuilder) : M (list slot) unit := λ ts,
  match validate b callables with
  | Some a => raise (not_callable a) ts
  | None => modify (λ ts, ts ++ [Slot b None false]) ts
  end.

(** [ThreadBundle.__len__] *)
Definition len (ts : list slot) : nat := length ts.

(** [ThreadBundle.__init__]: [self._threads = []]. *)
Definition init : list slot := [].

(** ** Sequences of operations *)

Inductive op : Type :=
  | OpBind (b : ThreadBuilder)
  | OpStart
  | OpStop
  | OpElsewhere (f : World → World).

(** One operation; the caller catches whatever it raises and goes on. *)
Definition run_op (o : op) (ts : list slot) (w : World)
    : list slot * World * list event :=
  match o with
  | OpBind b => let '(Res ts1 w1 ev1 _) := bind b ts w in (ts1, w1, ev1)
  | OpStart => let '(Res ts1 w1 ev1 _) := start ts w in (ts1, w1, ev1)
  | OpStop => let '(Res ts1 w1 ev1 _) := stop ts w in (ts1, w1, ev1)
  | OpElsewhere f => (ts, f w, [])
  end.

Fixpoint run_ops (os : list op) (ts : list slot) (w : World)
    : list slot * World * list event :=
  match os with
  | [] => (ts, w, [])
  | o :: os' =>
      let '(ts1, w1, ev1) := run_op o ts w in
      let '(ts2, w2, ev2) := run_ops os' ts1 w1 in
      (ts2, w2, ev1 ++ ev2)
  end.

(** ** Predicates on slots *)

(** The slot is skipped by [start]: [thread and started]. *)
Definition running (s : slot) : bool := truthy (thread s) && started s.

(** The invariant of section 3: [started] implies a thread is present. *)
Definition slot_ok (s : slot) : Prop := started s = true → thread s ≠ None.

(** A slot as [bind] creates it and as a completed join leaves it. *)
Definition idle (s : slot) : Prop := thread s = None ∧ started s = false.

End ThreadBundle.

Arguments Thread : clear implicits.
Arguments ThreadBuilder : clear implicits.
Arguments slot : clear implicits.
Arguments op : clear implicits.
Arguments res : clear implicits.
Arguments M : clear implicits.
Arguments effect : clear implicits.
Arguments FactoryFn : clear implicits.
Arguments HookFn : clear implicits.
Arguments Res {World S A} _ _ _ _.
Arguments r_state {World S A} _.
Arguments r_world {World S A} _.
Arguments r_events {World S A} _.
Arguments r_value {World S A} _.

(** ** Concrete bundles

    The world is a counter from which a factory takes the identity of the
    thread it builds, so that every thread built is a new one. *)

Definition quiet_thread (n : nat) : Thread nat :=
  {| ident := n;
     start_method := λ w, (w, inr tt);
     join_method := λ w, (w, inr tt) |}.

Definition counting_factory : FactoryFn nat :=
  λ w, (S w, inr (Some (quiet_thread w))).

Definition failing_hook (code : nat) : HookFn nat :=
  λ _ w, (w, inl (UserError code)).

(** [bind(factory)] *)
Definition plain_builder : ThreadBuilder nat :=
  {| thread_factory := PyCallable counting_factory;
     before_start := PyNone; after_start := PyNone;
     before_join := PyNone; after_join := PyNone |}.

(** [bind(factory, before_start=hook)], with a hook that raises. *)
Definition before_start_fails : ThreadBuilder nat :=
  {| thread_factory := PyCallable counting_factory;
     before_start := PyCallable (failing_hook 7); after_start := PyNone;
     before_join := PyNone; after_join := PyNone |}.

(** [bind(factory, after_start=hook, after_join=hook)], with hooks that
    raise. *)
Definition after_hooks_fail : ThreadBuilder nat :=
  {| thread_factory := PyCallable counting_factory;
     before_start := PyNone; after_start := PyCallable (failing_hook 8);
     before_join := PyNone; after_join := PyCallable (failing_hook 9) |}.

(** [bind(None)] *)
Definition no_factory : ThreadBuilder nat :=
  {| thread_factory := PyNone;
     before_start := PyNone; after_start := PyNone;
     before_join := PyNone; after_join := PyNone |}.

(** A bundle after [bind]s of the given builders. *)
Definition bound (bs : list (ThreadBuilder nat)) : list (slot nat) :=
  (λ b, Slot b None false) <$> bs.

(** ** Reading the events of an operation *)

(** The calls of one kind, and the calls made for one slot. *)
Definition calls (c : call) (evs : list event) : list event :=
  filter (λ e, ev_call e = c) evs.

Definition slot_events (j : nat) (evs : list event) : list event :=
  filter (λ e, ev_slot e = j) evs.

(** What a walk did to the slot of index [j]: it left it alone, or it ran
    the body on it once, with outcome [oe] ([None]: the body returned). *)
Definition untouched {World} (j : nat) (ts : list (slot World))
    (r : res World (list (slot World)) nat) : Prop :=
  r_state r !! j = ts !! j ∧ slot_events j (r_events r) = [].

Definition visited {World} (body : nat → nat → M World (slot World) nat)
    (j : nat) (oe : option exn) (ts : list (slot World))
    (r : res World (list (slot World)) nat) : Prop :=
  ∃ s c w,
    ts !! j = Some s ∧
    r_state r !! j = Some (r_state (body j c s w)) ∧
    slot_events j (r_events r) = r_events (body j c s w) ∧
    exn_of (r_value (body j c s w)) = oe.

(** The number of slots [start] has to start, and [stop] has to join. *)
Definition to_start {World} (ts : list (slot World)) : nat :=
  length (filter (λ s, running s = false) ts).

Definition to_join {World} (ts : list (slot World)) : nat :=
  length (filter (λ s, running s = true) ts).

(** The calls [stop] makes, as opposed to those [start] makes. *)
Definition join_call (c : call) : bool :=
  match c with
  | BeforeJoin | ThreadJoin | AfterJoin => true
  | _ => false
  end.

(** In a history of calls, every call [stop] made for a slot (a
    [before_join], a [join], an [after_join]) is on a thread for which an
    earlier [thread.start()] was made for that slot, and returned. *)
Definition joins_follow_starts (trace : list event) : Prop :=
  ∀ k e, trace !! k = Some e → join_call (ev_call e) = true →
    ∃ tid k', ev_thread e = Some tid ∧ k' < k ∧
      trace !! k' = Some (Ev ThreadStart (ev_slot e) (Some tid) None).

(** The thread of every started slot was started for it, in [trace]. *)
Definition started_logged {World} (ts : list (slot World))
    (trace : list event) : Prop :=
  ∀ j s t, ts !! j = Some s → started s = true → thread s = Some t →
    Ev ThreadStart j (Some (ident t)) None ∈ trace.

(** ** Sequences of operations, and more concrete bundles *)

(** The registrations a sequence of operations adds: the builders of the
    [bind]s that pass the validation, in the order of the calls. *)
Definition accepted {World} (os : list (op World))
    : list (ThreadBuilder World) :=
  omap (λ o, match o with
             | OpBind b =>
                 match validate b callables with
                 | None => Some b
                 | Some _ => None
                 end
             | _ => None
             end) os.

(** The position of an argument in [_ThreadBuilder.callables]. *)
Definition attr_position (a : attr) : nat :=
  match a with
  | a_thread_factory => 0
  | a_before_start => 1
  | a_after_start => 2
  | a_before_join => 3
  | a_after_join => 4
  end.

(** More concrete bundles: hooks that are not callable, a thread whose
    [start()] raises, a thread whose [join()] raises. *)
Definition bad_hooks : ThreadBuilder nat :=
  {| thread_factory := PyCallable counting_factory;
     before_start := PyNone; after_start := PyNotCallable;
     before_join := PyNone; after_join := PyNotCallable |}.


Definition unstartable_thread (n : nat) : Thread nat :=
  {| ident := n;
     start_method := λ w, (w, inl (UserError 5));
     join_method := λ w, (w, inr tt) |}.

Definition unstartable : ThreadBuilder nat :=
  {| thread_factory :=
       PyCallable (λ w, (S w, inr (Some (unstartable_thread w))));
     before_start := PyNone; after_start := PyNone;
     before_join := PyNone; after_join := PyNone |}.

Definition unjoinable_thread (n : nat) : Thread nat :=
  {| ident := n;
     start_method := λ w, (w, inr tt);
     join_method := λ w, (w, inl (UserError 6)) |}.

Definition unjoinable : ThreadBuilder nat :=
  {| thread_factory :=
       PyCallable (λ w, (S w, inr (Some (unjoinable_thread w))));
     before_start := PyNone; after_start := PyNone;
     before_join := PyNone; after_join := PyNone |}.

(** * Properties *)

(** ** Events of one slot *)

Lemma slot_events_app j (l1 l2 : list event) :
  slot_events j (l1 ++ l2) = slot_events j l1 ++ slot_events j l2.
Proof. apply filter_app. Qed.

Lemma slot_events_same j (l : list event) :
  Forall (λ e, ev_slot e = j) l → slot_events j l = l.
Proof.
  induction 1 as [|e l He _ IH]; [reflexivity|].
  unfold slot_events in *. rewrite filter_cons_True by exact He.
  by rewrite IH.
Qed.

Lemma slot_events_other i j (l : list event) :
  i ≠ j → Forall (λ e, ev_slot e = i) l → slot_events j l = [].
Proof.
  intros Hij. induction 1 as [|e l He _ IH]; [reflexivity|].
  unfold slot_events in *. rewrite filter_cons_False by congruence.
  exact IH.
Qed.

Lemma slot_events_none j (l : list event) :
  (∀ e, e ∈ l → ev_slot e ≠ j) → slot_events j l = [].
Proof.
  induction l as [|e l IH]; intros H; [reflexivity|].
  unfold slot_events in *. rewrite filter_cons_False.
  - apply IH. intros e' He'. apply H. by right.
  - apply H. by left.
Qed.

Lemma slot_events_elem j e (l : list event) :
  e ∈ slot_events j l ↔ e ∈ l ∧ ev_slot e = j.
Proof. unfold slot_events. rewrite list_elem_of_filter. tauto. Qed.


(** ** The loop, for any body that only calls out on behalf of its slot *)

Section walk_facts.

Context {World : Type}.
Implicit Types (s : slot World) (ts : list (slot World)) (w : World).

Variable body : nat → nat → M World (slot World) nat.
Hypothesis body_slot : ∀ i c s w,
  Forall (λ e, ev_slot e = i) (r_events (body i c s w)).

Lemma walk_length it c ts w :
  length (r_state (walk body it c ts w)) = length ts.
Proof.
  revert c ts w. induction it as [|i it IH]; intros c ts w; simpl; [done|].
  destruct (ts !! i) as [s|]; [|done].
  destruct (body i c s w) as [s1 w1 ev1 [e|c']]; simpl.
  - by rewrite length_insert.
  - specialize (IH c' (<[i:=s1]> ts) w1).
    destruct (walk body it c' (<[i:=s1]> ts) w1); simpl in *.
    by rewrite IH, length_insert.
Qed.

Lemma walk_events_in it c ts w e :
  e ∈ r_events (walk body it c ts w) → ev_slot e ∈ it.
Proof.
  revert c ts w. induction it as [|i it IH]; intros c ts w; simpl.
  - by intros ?%elem_of_nil.
  - destruct (ts !! i) as [s|]; [|by intros ?%elem_of_nil].
    pose proof (body_slot i c s w) as Hs.
    destruct (body i c s w) as [s1 w1 ev1 [x|c']]; simpl in *.
    + intros He. apply elem_of_cons. left.
      rewrite Forall_forall in Hs. by apply Hs.
    + specialize (IH c' (<[i:=s1]> ts) w1).
      destruct (walk body it c' (<[i:=s1]> ts) w1); simpl in *.
      intros [He|He]%elem_of_app.
      * apply elem_of_cons. left. rewrite Forall_forall in Hs. by apply Hs.
      * apply elem_of_cons. right. by apply IH.
Qed.

Lemma walk_frame it c ts w j :
  j ∉ it → untouched j ts (walk body it c ts w).
Proof.
  intros Hj. split.
  - revert c ts w. induction it as [|i it IH]; intros c ts w; simpl; [done|].
    apply not_elem_of_cons in Hj as [Hji Hj].
    destruct (ts !! i) as [s|]; [|done].
    destruct (body i c s w) as [s1 w1 ev1 [x|c']]; simpl.
    + by rewrite list_lookup_insert_ne.
    + specialize (IH Hj c' (<[i:=s1]> ts) w1).
      destruct (walk body it c' (<[i:=s1]> ts) w1); simpl in *.
      by rewrite IH, list_lookup_insert_ne.
  - apply slot_events_none. intros e He%walk_events_in Heq.
    by rewrite Heq in He.
Qed.

Lemma walk_in_range it c ts w n :
  r_value (walk body it c ts w) = inr n → ∀ i, i ∈ it → i < length ts.
Proof.
  revert c ts w. induction it as [|i it IH]; intros c ts w; simpl.
  - by intros _ i ?%elem_of_nil.
  - destruct (ts !! i) as [s|] eqn:Hi; [|done].
    destruct (body i c s w) as [s1 w1 ev1 [x|c']]; simpl; [done|].
    specialize (IH c' (<[i:=s1]> ts) w1).
    destruct (walk body it c' (<[i:=s1]> ts) w1); simpl in *.
    intros Hv j [->|Hj]%elem_of_cons.
    + by eapply lookup_lt_Some.
    + rewrite <- (length_insert ts i s1). by apply IH.
Qed.

(** The head of the iteration, seen from the whole walk. *)
Lemma walk_head i it c ts w s :
  i ∉ it → ts !! i = Some s →
  visited body i (exn_of (r_value (body i c s w))) ts
    (walk body (i :: it) c ts w).
Proof.
  intros Hi Hs. exists s, c, w. simpl. rewrite Hs.
  pose proof (body_slot i c s w) as Hb.
  pose proof (lookup_lt_Some _ _ _ Hs) as Hlt.
  destruct (body i c s w) as [s1 w1 ev1 [x|c']] eqn:E; simpl in *.
  - rewrite list_lookup_insert_eq by done.
    by rewrite slot_events_same.
  - pose proof (walk_frame it c' (<[i:=s1]> ts) w1 i Hi) as [Hf1 Hf2].
    destruct (walk body it c' (<[i:=s1]> ts) w1); simpl in *.
    rewrite Hf1, list_lookup_insert_eq by done.
    rewrite slot_events_app, Hf2, app_nil_r.
    by rewrite slot_events_same.
Qed.

(** A slot further down the iteration, seen from the whole walk. *)
Lemma walk_tail_visited i it c ts w s s1 w1 ev1 c' j oe :
  i ≠ j → ts !! i = Some s →
  body i c s w = Res s1 w1 ev1 (inr c') →
  visited body j oe (<[i:=s1]> ts) (walk body it c' (<[i:=s1]> ts) w1) →
  visited body j oe ts (walk body (i :: it) c ts w).
Proof.
  intros Hij Hs Hb (sj & cj & wj & H1 & H2 & H3 & H4).
  exists sj, cj, wj. simpl. rewrite Hs, Hb.
  pose proof (body_slot i c s w) as Hsl. rewrite Hb in Hsl. simpl in Hsl.
  rewrite list_lookup_insert_ne in H1 by done.
  destruct (walk body it c' (<[i:=s1]> ts) w1); simpl in *.
  rewrite slot_events_app, (slot_events_other i j) by done.
  done.
Qed.

Lemma walk_tail_untouched i it c ts w s s1 w1 ev1 c' j :
  i ≠ j → ts !! i = Some s →
  body i c s w = Res s1 w1 ev1 (inr c') →
  untouched j (<[i:=s1]> ts) (walk body it c' (<[i:=s1]> ts) w1) →
  untouched j ts (walk body (i :: it) c ts w).
Proof.
  intros Hij Hs Hb [H1 H2]. unfold untouched. simpl. rewrite Hs, Hb.
  pose proof (body_slot i c s w) as Hsl. rewrite Hb in Hsl. simpl in Hsl.
  rewrite list_lookup_insert_ne in H1 by done.
  destruct (walk body it c' (<[i:=s1]> ts) w1); simpl in *.
  rewrite slot_events_app, (slot_events_other i j) by done.
  done.
Qed.

(** A walk that returns ran the body, to its end, on every slot of the
    iteration. *)
Lemma walk_ok it c ts w n :
  NoDup it → r_value (walk body it c ts w) = inr n →
  ∀ j, j ∈ it → visited body j None ts (walk body it c ts w).
Proof.
  intros Hnd. revert c ts w.
  induction Hnd as [|i it Hi Hnd IH]; intros c ts w Hv j Hj.
  { by apply elem_of_nil in Hj. }
  assert (∃ s, ts !! i = Some s) as [s Hs].
  { simpl in Hv. destruct (ts !! i); [eauto|done]. }
  destruct (body i c s w) as [s1 w1 ev1 [x|c']] eqn:Hb.
  { simpl in Hv. by rewrite Hs, Hb in Hv. }
  apply elem_of_cons in Hj as [->|Hj].
  - pose proof (walk_head i it c ts w s Hi Hs) as H.
    by rewrite Hb in H.
  - eapply walk_tail_visited; [set_solver|done..|].
    apply IH; [|done].
    simpl in Hv. rewrite Hs, Hb in Hv.
    by destruct (walk body it c' (<[i:=s1]> ts) w1).
Qed.

(** A walk that raises ran the body to its end on the slots before the one
    that raised, and left the slots after it alone. *)
Lemma walk_raise it c ts w x :
  NoDup it → (∀ i, i ∈ it → i < length ts) →
  r_value (walk body it c ts w) = inl x →
  ∃ it1 i it2, it = it1 ++ i :: it2 ∧
    (∀ j, j ∈ it1 → visited body j None ts (walk body it c ts w)) ∧
    visited body i (Some x) ts (walk body it c ts w) ∧
    (∀ j, j ∈ it2 → untouched j ts (walk body it c ts w)).
Proof.
  intros Hnd. revert c ts w.
  induction Hnd as [|i it Hi Hnd IH]; intros c ts w Hr Hv; [done|].
  destruct (ts !! i) as [s|] eqn:Hs.
  2:{ apply lookup_ge_None in Hs. specialize (Hr i ltac:(by left)). lia. }
  destruct (body i c s w) as [s1 w1 ev1 [e|c']] eqn:Hb.
  - exists [], i, it. split; [done|].
    assert (e = x) as -> by (simpl in Hv; rewrite Hs, Hb in Hv; naive_solver).
    split; [by intros j ?%elem_of_nil|]. split.
    + pose proof (walk_head i it c ts w s Hi Hs) as H.
      by rewrite Hb in H.
    + intros j Hj. split; simpl; rewrite Hs, Hb; simpl.
      * rewrite list_lookup_insert_ne; [done|set_solver].
      * pose proof (body_slot i c s w) as Hsl. rewrite Hb in Hsl.
        apply (slot_events_other i j); [set_solver|done].
  - destruct (IH c' (<[i:=s1]> ts) w1) as (it1 & k & it2 & Heq & H1 & H2 & H3).
    { intros j Hj. rewrite length_insert. apply Hr. by right. }
    { simpl in Hv. rewrite Hs, Hb in Hv.
      by destruct (walk body it c' (<[i:=s1]> ts) w1). }
    subst it. exists (i :: it1), k, it2. split; [done|]. split; [|split].
    + intros j [->|Hj]%elem_of_cons.
      * pose proof (walk_head i _ c ts w s Hi Hs) as H.
        by rewrite Hb in H.
      * eapply walk_tail_visited; [set_solver|done..|]. by apply H1.
    + eapply walk_tail_visited; [set_solver|done..].
    + intros j Hj. eapply walk_tail_untouched; [set_solver|done..|].
      by apply H3.
Qed.

(** Whatever the outcome, each slot was left alone or visited once. *)
Lemma walk_any it c ts w j :
  NoDup it → (∀ i, i ∈ it → i < length ts) →
  untouched j ts (walk body it c ts w) ∨
  ∃ oe, j ∈ it ∧ visited body j oe ts (walk body it c ts w) ∧
        ∀ x, oe = Some x → r_value (walk body it c ts w) = inl x.
Proof.
  intros Hnd Hr.
  destruct (decide (j ∈ it)) as [Hj|Hj]; [|left; by apply walk_frame].
  destruct (r_value (walk body it c ts w)) as [x|n] eqn:Hv.
  - destruct (walk_raise it c ts w x Hnd Hr Hv)
      as (it1 & i & it2 & -> & H1 & H2 & H3).
    apply elem_of_app in Hj as [Hj|[->|Hj]%elem_of_cons].
    + right. exists None. split; [set_solver|]. split; [by apply H1|done].
    + right. exists (Some x). split; [set_solver|]. split; [done|congruence].
    + left. by apply H3.
  - right. exists None. split; [done|]. split; [|done].
    by eapply walk_ok.
Qed.

(** Every call was made by the one visit of its slot. *)
Lemma walk_event it c ts w e :
  NoDup it → (∀ i, i ∈ it → i < length ts) →
  e ∈ r_events (walk body it c ts w) →
  ∃ s c' w', ts !! ev_slot e = Some s ∧
    r_state (walk body it c ts w) !! ev_slot e
      = Some (r_state (body (ev_slot e) c' s w')) ∧
    slot_events (ev_slot e) (r_events (walk body it c ts w))
      = r_events (body (ev_slot e) c' s w') ∧
    e ∈ r_events (body (ev_slot e) c' s w').
Proof.
  intros Hnd Hr He.
  assert (e ∈ slot_events (ev_slot e) (r_events (walk body it c ts w)))
    as Hse by (by apply slot_events_elem).
  destruct (walk_any it c ts w (ev_slot e) Hnd Hr)
    as [[_ Hno]|(oe & _ & (s & c' & w' & H1 & H2 & H3 & _) & _)].
  - rewrite Hno in Hse. by apply elem_of_nil in Hse.
  - exists s, c', w'. by rewrite <- H3.
Qed.


(** A walk over slots on which the body does nothing does nothing. *)
Lemma walk_noop it c ts w :
  (∀ i, i ∈ it → ∃ s, ts !! i = Some s ∧
     ∀ c w, body i c s w = Res s w [] (inr c)) →
  walk body it c ts w = Res ts w [] (inr c).
Proof.
  induction it as [|i it IH]; intros H; simpl; [done|].
  destruct (H i ltac:(by left)) as (s & Hs & Hb).
  rewrite Hs, Hb, list_insert_id by done.
  rewrite IH; [done|]. intros j Hj. apply H. by right.
Qed.

(** The count returned, for a body that adds [δ s] on slot [s]. *)
Lemma walk_count (δ : slot World → nat) it c ts w n :
  (∀ i c s w c', r_value (body i c s w) = inr c' → c' = c + δ s) →
  NoDup it → r_value (walk body it c ts w) = inr n →
  n = c + sum_list_with (λ i, from_option δ 0 (ts !! i)) it.
Proof.
  intros Hδ Hnd.
  enough (∀ ts0, (∀ j, j ∈ it → ts !! j = ts0 !! j) →
            r_value (walk body it c ts w) = inr n →
            n = c + sum_list_with (λ i, from_option δ 0 (ts0 !! i)) it)
    as H by (by apply H).
  revert c ts w.
  induction Hnd as [|i it Hi Hnd IH]; intros c ts w ts0 Hag; simpl.
  { intros [= ->]. lia. }
  rewrite <- (Hag i) by (by left).
  destruct (ts !! i) as [s|] eqn:Hs; [|done].
  specialize (Hδ i c s w).
  destruct (body i c s w) as [s1 w1 ev1 [x|c']]; simpl in *; [done|].
  specialize (IH c' (<[i:=s1]> ts) w1 ts0).
  destruct (walk body it c' (<[i:=s1]> ts) w1) as [ts2 w2 ev2 v2].
  simpl in *. intros Hv. rewrite (IH); [|..|done].
  - rewrite (Hδ c' eq_refl). lia.
  - intros j Hj. rewrite list_lookup_insert_ne by set_solver.
    apply Hag. by right.
Qed.


End walk_facts.

(** *** Walks whose body stops at the first call that raises *)

Section walk_raise_facts.

Context {World : Type}.
Implicit Types (s : slot World) (ts : list (slot World)) (w : World).

Variable body : nat → nat → M World (slot World) nat.
Hypothesis body_slot : ∀ i c s w,
  Forall (λ e, ev_slot e = i) (r_events (body i c s w)).
Hypothesis body_raise : ∀ i c s w e x,
  e ∈ r_events (body i c s w) → ev_exn e = Some x →
  r_value (body i c s w) = inl x ∧ last (r_events (body i c s w)) = Some e.
Hypothesis body_quiet : ∀ i c s w c',
  r_value (body i c s w) = inr c' →
  Forall (λ e, ev_exn e = None) (r_events (body i c s w)).

(** No call is made after one that raised. *)
Lemma walk_raise_last it c ts w e x :
  e ∈ r_events (walk body it c ts w) → ev_exn e = Some x →
  last (r_events (walk body it c ts w)) = Some e.
Proof.
  intros He Hx. revert c ts w He.
  induction it as [|i it IH]; intros c ts w; simpl.
  { by intros ?%elem_of_nil. }
  destruct (ts !! i) as [s|]; [|by intros ?%elem_of_nil].
  pose proof (body_raise i c s w e x) as Hr.
  pose proof (body_quiet i c s w) as Hq.
  destruct (body i c s w) as [s1 w1 ev1 [y|c']]; simpl in *.
  { intros He. by apply Hr. }
  specialize (IH c' (<[i:=s1]> ts) w1).
  destruct (walk body it c' (<[i:=s1]> ts) w1) as [ts2 w2 ev2 v2].
  simpl in *. intros [He|He]%elem_of_app.
  - specialize (Hq c' eq_refl). rewrite Forall_forall in Hq.
    specialize (Hq e He). congruence.
  - rewrite last_app, (IH He). done.
Qed.

(** The slot of a call that raised splits the iteration: the slots before
    it were visited and the body returned, the slots after it were left
    alone, and the exception is what the walk raises. *)
Lemma walk_raise_at it c ts w e x :
  NoDup it → (∀ i, i ∈ it → i < length ts) →
  e ∈ r_events (walk body it c ts w) → ev_exn e = Some x →
  r_value (walk body it c ts w) = inl x ∧
  ∃ it1 it2, it = it1 ++ ev_slot e :: it2 ∧
    (∀ j, j ∈ it1 → visited body j None ts (walk body it c ts w)) ∧
    visited body (ev_slot e) (Some x) ts (walk body it c ts w) ∧
    (∀ j, j ∈ it2 → untouched j ts (walk body it c ts w)).
Proof.
  intros Hnd Hr He Hx.
  assert (e ∈ slot_events (ev_slot e) (r_events (walk body it c ts w)))
    as Hse by (by apply slot_events_elem).
  assert (∀ oe, visited body (ev_slot e) oe ts (walk body it c ts w) →
            oe = Some x) as Hvis.
  { intros oe (s & c' & w' & _ & _ & H3 & H4). rewrite H3 in Hse.
    destruct (body_raise _ _ _ _ _ _ Hse Hx) as [Hv _].
    rewrite Hv in H4. by rewrite <- H4. }
  destruct (r_value (walk body it c ts w)) as [y|n] eqn:Hv.
  - destruct (walk_raise body body_slot it c ts w y Hnd Hr Hv)
      as (it1 & k & it2 & -> & H1 & H2 & H3).
    pose proof (walk_events_in body body_slot _ _ _ _ _ He) as Hin.
    apply elem_of_app in Hin as [Hin|[Hin|Hin]%elem_of_cons].
    + by specialize (Hvis None (H1 _ Hin)).
    + subst k. specialize (Hvis _ H2). injection Hvis as ->.
      split; [done|]. by exists it1, it2.
    + destruct (H3 _ Hin) as [_ Hno]. rewrite Hno in Hse.
      by apply elem_of_nil in Hse.
  - pose proof (walk_events_in body body_slot _ _ _ _ _ He) as Hin.
    by specialize (Hvis None (walk_ok body body_slot it c ts w n Hnd Hv _ Hin)).
Qed.

(** An exception comes from a call that raised it. *)
Lemma walk_raised_event it c ts w x :
  (∀ i c s w x, r_value (body i c s w) = inl x →
     ∃ e, e ∈ r_events (body i c s w) ∧ ev_exn e = Some x) →
  (∀ i, i ∈ it → i < length ts) →
  r_value (walk body it c ts w) = inl x →
  ∃ e, e ∈ r_events (walk body it c ts w) ∧ ev_exn e = Some x.
Proof.
  intros Hbody. revert c ts w.
  induction it as [|i it IH]; intros c ts w Hr; simpl; [done|].
  destruct (ts !! i) as [s|] eqn:Hs.
  2:{ apply lookup_ge_None in Hs. specialize (Hr i ltac:(by left)). lia. }
  specialize (Hbody i c s w).
  destruct (body i c s w) as [s1 w1 ev1 [y|c']]; simpl in *.
  { intros [= ->]. by apply Hbody. }
  specialize (IH c' (<[i:=s1]> ts) w1).
  destruct (walk body it c' (<[i:=s1]> ts) w1) as [ts2 w2 ev2 v2].
  simpl in *. intros Hv. destruct IH as (e & He & Hx); [|done|].
  - intros j Hj. rewrite length_insert. apply Hr. by right.
  - exists e. split; [|done]. apply elem_of_app. by right.
Qed.

End walk_raise_facts.

(** A property of slots that the body keeps is kept by the walk. *)
Lemma walk_preserves {World} (body : nat → nat → M World (slot World) nat)
    (P : slot World → Prop) it c ts w :
  (∀ i c s w, P s → P (r_state (body i c s w))) →
  Forall P ts → Forall P (r_state (walk body it c ts w)).
Proof.
  intros Hb. revert c ts w.
  induction it as [|i it IH]; intros c ts w Hts; simpl; [done|].
  destruct (ts !! i) as [s|] eqn:Hs; [|done].
  assert (P s) as HPs.
  { rewrite Forall_forall in Hts. apply Hts. by eapply list_elem_of_lookup_2. }
  specialize (Hb i c s w HPs).
  destruct (body i c s w) as [s1 w1 ev1 [x|c']]; simpl in *.
  - by apply Forall_insert.
  - specialize (IH c' (<[i:=s1]> ts) w1 (Forall_insert _ _ _ _ Hts Hb)).
    by destruct (walk body it c' (<[i:=s1]> ts) w1).
Qed.

(** Summing over the indices of a list is summing over the list. *)
Lemma sum_over_indices {A} (f : A → nat) (pre l : list A) :
  sum_list_with (λ i, from_option f 0 ((pre ++ l) !! i))
    (seq (length pre) (length l)) = sum_list_with f l.
Proof.
  revert pre. induction l as [|a l IH]; intros pre; simpl; [done|].
  rewrite list_lookup_middle by done. simpl. f_equal.
  specialize (IH (pre ++ [a])).
  rewrite length_app, Nat.add_1_r, <- app_assoc in IH. exact IH.
Qed.

Lemma sum_indicator {A} (P : A → bool) (b : bool) (l : list A) :
  sum_list_with (λ a, if bool_decide (P a = b) then 1 else 0) l
  = length (filter (λ a, P a = b) l).
Proof.
  induction l as [|a l IH]; simpl; [done|].
  rewrite filter_cons. case_bool_decide; case_decide; simpl; try done.
  by rewrite IH.
Qed.

(** ** The two loop bodies, slot by slot *)

Section body_facts.

Context {World : Type}.
Implicit Types (s : slot World) (ts : list (slot World)) (w : World).

Ltac unfold_body :=
  unfold start_body, stop_body, call_factory, _trigger_callback,
    thread_start, thread_join, set_thread, set_started, try_finally, bindM,
    perform, modify, ret, py_call, running, truthy, id_of, exn_of,
    slot_ok, idle, calls in *.

Ltac step_body :=
  match goal with
  | |- context [match ?x with _ => _ end] =>
      lazymatch x with
      | context [match _ with _ => _ end] => fail
      | _ => destruct x eqn:?; simpl in *
      end
  | H : context [match ?x with _ => _ end] |- _ =>
      lazymatch x with
      | context [match _ with _ => _ end] => fail
      | _ => destruct x eqn:?; simpl in *
      end
  end.

Ltac body_cases s :=
  destruct s as [? [?|] [|]];
  unfold_body; simpl in *; repeat step_body.

Ltac pick_event H :=
  repeat (apply elem_of_cons in H as [?|H]);
  try (by apply elem_of_nil in H); simplify_eq; simpl in *; simplify_eq.

(** *** [start] *)

Lemma start_body_slot i c s w :
  Forall (λ e, ev_slot e = i) (r_events (start_body i c s w)).
Proof. body_cases s; repeat constructor. Qed.

Lemma start_body_builder i c s w :
  builder (r_state (start_body i c s w)) = builder s.
Proof. body_cases s; reflexivity. Qed.

Lemma start_body_skip i c s w :
  running s = true → start_body i c s w = Res s w [] (inr c).
Proof. body_cases s; intros; simplify_eq; reflexivity. Qed.

Lemma start_body_ok i c s w c' :
  r_value (start_body i c s w) = inr c' →
  running s = false →
  c' = c + 1 ∧
  ∃ t, thread (r_state (start_body i c s w)) = Some t ∧
       started (r_state (start_body i c s w)) = true ∧
       (thread s = None ∨ thread s = Some t) ∧
       calls ThreadStart (r_events (start_body i c s w))
         = [Ev ThreadStart i (Some (ident t)) None] ∧
       Forall (λ e, ev_exn e = None) (r_events (start_body i c s w)).
Proof.
  body_cases s; intros; simplify_eq; (split; [reflexivity|]);
    eexists; repeat split; eauto; repeat constructor.
Qed.

Lemma start_body_count i c s w c' :
  r_value (start_body i c s w) = inr c' →
  c' = c + (if bool_decide (running s = false) then 1 else 0).
Proof. body_cases s; intros; simplify_eq; lia. Qed.


Lemma start_body_fresh i c s w :
  thread s = None →
  ∃ w1 v, py_call (thread_factory (builder s)) w = (w1, v) ∧
    head (r_events (start_body i c s w))
      = Some (Ev Factory i
                (match v with inr t => id_of t | inl _ => None end)
                (exn_of v)) ∧
    match v with
    | inr t => thread (r_state (start_body i c s w)) = t
    | inl x => start_body i c s w
               = Res s w1 [Ev Factory i None (Some x)] (inl x)
    end.
Proof.
  body_cases s; intros; simplify_eq; eexists _, _; (split; [done|]); done.
Qed.


Lemma start_body_raise i c s w e x :
  e ∈ r_events (start_body i c s w) → ev_exn e = Some x →
  r_value (start_body i c s w) = inl x ∧
  last (r_events (start_body i c s w)) = Some e ∧
  (ev_call e ≠ AfterStart →
     started (r_state (start_body i c s w)) = started s) ∧
  (ev_call e = AfterStart →
     started (r_state (start_body i c s w)) = true ∧
     ∃ t, thread (r_state (start_body i c s w)) = Some t ∧
          ev_thread e = Some (ident t)).
Proof.
  body_cases s; intros Hin Hx; pick_event Hin; repeat split; try done; eauto.
Qed.

Lemma start_body_raised i c s w x :
  r_value (start_body i c s w) = inl x →
  ∃ e, last (r_events (start_body i c s w)) = Some e ∧ ev_exn e = Some x.
Proof. body_cases s; intros; simplify_eq; eexists; split; done. Qed.

Lemma start_body_visit i c s w e :
  e ∈ r_events (start_body i c s w) →
  running s = false ∧ join_call (ev_call e) = false ∧
  (ev_call e = Factory → thread s = None).
Proof. body_cases s; intros Hin; pick_event Hin; done. Qed.

Lemma start_body_slot_ok i c s w :
  slot_ok s → slot_ok (r_state (start_body i c s w)).
Proof.
  body_cases s; intros H; simpl; try done;
    try (by exfalso; apply H); intros; by apply H.
Qed.

Lemma start_body_started i c s w t :
  slot_ok s →
  started (r_state (start_body i c s w)) = true →
  thread (r_state (start_body i c s w)) = Some t →
  r_state (start_body i c s w) = s ∨
  Ev ThreadStart i (Some (ident t)) None ∈ r_events (start_body i c s w).
Proof.
  body_cases s; intros H; simpl; intros; simplify_eq; try (by left);
    try (by exfalso; apply H);
    right; rewrite ?elem_of_cons; auto 10.
Qed.

(** *** [stop] *)

Lemma stop_body_slot i c s w :
  Forall (λ e, ev_slot e = i) (r_events (stop_body i c s w)).
Proof. body_cases s; repeat constructor. Qed.

Lemma stop_body_builder i c s w :
  builder (r_state (stop_body i c s w)) = builder s.
Proof. body_cases s; reflexivity. Qed.

Lemma stop_body_skip i c s w :
  running s = false → stop_body i c s w = Res s w [] (inr c).
Proof. body_cases s; intros; simplify_eq; reflexivity. Qed.

Lemma stop_body_ok i c s w c' :
  r_value (stop_body i c s w) = inr c' →
  running s = true →
  c' = c + 1 ∧
  r_state (stop_body i c s w) = Slot (builder s) None false ∧
  calls ThreadJoin (r_events (stop_body i c s w))
    = [Ev ThreadJoin i (id_of (thread s)) None] ∧
  Forall (λ e, ev_exn e = None) (r_events (stop_body i c s w)).
Proof.
  body_cases s; intros; simplify_eq; repeat split; repeat constructor.
Qed.

Lemma stop_body_count i c s w c' :
  r_value (stop_body i c s w) = inr c' →
  c' = c + (if bool_decide (running s = true) then 1 else 0).
Proof. body_cases s; intros; simplify_eq; lia. Qed.

Lemma stop_body_once i c s w :
  length (calls ThreadJoin (r_events (stop_body i c s w))) ≤ 1.
Proof. body_cases s; simpl; lia. Qed.

Lemma stop_body_raise i c s w e x :
  e ∈ r_events (stop_body i c s w) → ev_exn e = Some x →
  r_value (stop_body i c s w) = inl x ∧
  last (r_events (stop_body i c s w)) = Some e ∧
  (ev_call e ≠ AfterJoin → r_state (stop_body i c s w) = s) ∧
  (ev_call e = AfterJoin →
     r_state (stop_body i c s w) = Slot (builder s) None false).
Proof.
  body_cases s; intros Hin Hx; pick_event Hin; repeat split; done.
Qed.

Lemma stop_body_raised i c s w x :
  r_value (stop_body i c s w) = inl x →
  ∃ e, last (r_events (stop_body i c s w)) = Some e ∧ ev_exn e = Some x.
Proof. body_cases s; intros; simplify_eq; eexists; split; done. Qed.

Lemma stop_body_visit i c s w e :
  e ∈ r_events (stop_body i c s w) →
  running s = true ∧ join_call (ev_call e) = true ∧
  ev_thread e = id_of (thread s).
Proof. body_cases s; intros Hin; pick_event Hin; done. Qed.

Lemma stop_body_state i c s w :
  r_state (stop_body i c s w) = s ∨
  r_state (stop_body i c s w) = Slot (builder s) None false.
Proof. body_cases s; auto. Qed.

Lemma stop_body_slot_ok i c s w :
  slot_ok s → slot_ok (r_state (stop_body i c s w)).
Proof.
  intros H. destruct (stop_body_state i c s w) as [->| ->]; [done|].
  by intros ?.
Qed.


(** *** Starting a slot again *)

Lemma start_body_fresh_ok i c s w c' :
  thread s = None → r_value (start_body i c s w) = inr c' →
  ∃ t' w1, py_call (thread_factory (builder s)) w = (w1, inr (Some t')) ∧
    head (r_events (start_body i c s w))
      = Some (Ev Factory i (Some (ident t')) None) ∧
    calls Factory (r_events (start_body i c s w))
      = [Ev Factory i (Some (ident t')) None] ∧
    r_state (start_body i c s w) = Slot (builder s) (Some t') true.
Proof.
  body_cases s; intros; simplify_eq; eexists _, _; (split; [done|]); done.
Qed.

Lemma start_body_before_failed i c s w e x tid :
  thread s = None →
  e ∈ r_events (start_body i c s w) →
  ev_call e = BeforeStart → ev_exn e = Some x → ev_thread e = Some tid →
  before_start (builder s) ≠ PyNone ∧
  ∃ t, ident t = tid ∧
    r_state (start_body i c s w) = Slot (builder s) (Some t) (started s) ∧
    Ev Factory i (Some tid) None ∈ r_events (start_body i c s w).
Proof.
  body_cases s; intros Ht Hin; pick_event Hin; intros; simplify_eq;
    repeat match goal with
           | H : ident <$> ?o = Some _ |- _ => destruct o; simplify_eq/=
           end;
    (split; [congruence|]); eexists; (split; [reflexivity|]);
    (split; [reflexivity|]); rewrite ?elem_of_cons; auto.
Qed.

Lemma start_body_retry i c b t w :
  before_start b ≠ PyNone →
  calls Factory (r_events (start_body i c (Slot b (Some t) false) w)) = [] ∧
  thread (r_state (start_body i c (Slot b (Some t) false) w)) = Some t ∧
  ∃ e rest,
    r_events (start_body i c (Slot b (Some t) false) w) = e :: rest ∧
    ev_call e = BeforeStart ∧ ev_slot e = i ∧ ev_thread e = Some (ident t).
Proof.
  intros Hb. unfold_body. simpl. repeat step_body; try done;
    (split; [done|]); (split; [done|]); eexists _, _; done.
Qed.

(** *** Both *)

Lemma start_body_quiet i c s w c' :
  r_value (start_body i c s w) = inr c' →
  Forall (λ e, ev_exn e = None) (r_events (start_body i c s w)).
Proof. body_cases s; intros; simplify_eq; repeat constructor. Qed.

Lemma stop_body_quiet i c s w c' :
  r_value (stop_body i c s w) = inr c' →
  Forall (λ e, ev_exn e = None) (r_events (stop_body i c s w)).
Proof. body_cases s; intros; simplify_eq; repeat constructor. Qed.



End body_facts.

(** ** The two iterations *)

Lemma enumerate_NoDup {World} (ts : list (slot World)) : NoDup (enumerate ts).
Proof. apply NoDup_seq. Qed.

Lemma enumerate_elem {World} (ts : list (slot World)) i :
  i ∈ enumerate ts ↔ i < length ts.
Proof. unfold enumerate. rewrite elem_of_seq. lia. Qed.

Lemma seq_sorted j n : StronglySorted lt (seq j n).
Proof.
  revert j. induction n as [|n IH]; intros j; simpl; constructor; [done|].
  apply Forall_forall. intros k Hk%elem_of_seq. lia.
Qed.

Lemma enumerate_sorted {World} (ts : list (slot World)) :
  StronglySorted lt (enumerate ts).
Proof. apply seq_sorted. Qed.

Lemma reverse_enumerate_NoDup {World} (ts : list (slot World)) :
  NoDup (reverse_enumerate ts).
Proof.
  unfold reverse_enumerate. rewrite reverse_Permutation. apply NoDup_seq.
Qed.

Lemma reverse_enumerate_elem {World} (ts : list (slot World)) i :
  i ∈ reverse_enumerate ts ↔ i < length ts.
Proof. unfold reverse_enumerate. rewrite elem_of_reverse, elem_of_seq. lia. Qed.

Lemma reverse_seq_sorted j n : StronglySorted (flip lt) (reverse (seq j n)).
Proof.
  revert j. induction n as [|n IH]; intros j; simpl; [constructor|].
  rewrite reverse_cons. apply StronglySorted_app. split; [|split].
  - intros a b Ha%elem_of_reverse%elem_of_seq Hb%list_elem_of_singleton.
    unfold flip. lia.
  - apply IH.
  - repeat constructor.
Qed.

Lemma reverse_enumerate_sorted {World} (ts : list (slot World)) :
  StronglySorted (flip lt) (reverse_enumerate ts).
Proof. apply reverse_seq_sorted. Qed.

(** In a sorted iteration, what comes before an index is smaller and what
    comes after it is larger. *)
Lemma sorted_split (R : relation nat) (it1 it2 : list nat) i :
  StronglySorted R (it1 ++ i :: it2) →
  (∀ j, j ∈ it1 → R j i) ∧ (∀ j, j ∈ it2 → R i j).
Proof.
  intros (H1 & _ & H2%StronglySorted_inv)%StronglySorted_app. split.
  - intros j Hj. apply H1; [done|by left].
  - destruct H2 as [_ H2]. rewrite Forall_forall in H2. exact H2.
Qed.

(** ** [start] and [stop] on the whole bundle *)

Section bundle_facts.

Context {World : Type}.
Implicit Types (s : slot World) (ts : list (slot World)) (w : World).

Lemma start_length ts w : length (r_state (start ts w)) = length ts.
Proof. apply walk_length. Qed.

Lemma stop_length ts w : length (r_state (stop ts w)) = length ts.
Proof. apply walk_length. Qed.

Lemma start_event ts w e :
  e ∈ r_events (start ts w) →
  ∃ s c' w', ts !! ev_slot e = Some s ∧
    r_state (start ts w) !! ev_slot e
      = Some (r_state (start_body (ev_slot e) c' s w')) ∧
    slot_events (ev_slot e) (r_events (start ts w))
      = r_events (start_body (ev_slot e) c' s w') ∧
    e ∈ r_events (start_body (ev_slot e) c' s w').
Proof.
  apply (walk_event start_body start_body_slot).
  - apply enumerate_NoDup.
  - intros i. apply enumerate_elem.
Qed.

Lemma stop_event ts w e :
  e ∈ r_events (stop ts w) →
  ∃ s c' w', ts !! ev_slot e = Some s ∧
    r_state (stop ts w) !! ev_slot e
      = Some (r_state (stop_body (ev_slot e) c' s w')) ∧
    slot_events (ev_slot e) (r_events (stop ts w))
      = r_events (stop_body (ev_slot e) c' s w') ∧
    e ∈ r_events (stop_body (ev_slot e) c' s w').
Proof.
  apply (walk_event stop_body stop_body_slot).
  - apply reverse_enumerate_NoDup.
  - intros i. apply reverse_enumerate_elem.
Qed.

Lemma start_any ts w j :
  untouched j ts (start ts w) ∨
  ∃ oe, j < length ts ∧ visited start_body j oe ts (start ts w) ∧
        ∀ x, oe = Some x → r_value (start ts w) = inl x.
Proof.
  destruct (walk_any start_body start_body_slot (enumerate ts) 0 ts w j)
    as [H|(oe & Hj & H)]; [apply enumerate_NoDup| |by left|].
  - intros i. apply enumerate_elem.
  - right. exists oe. by rewrite <- enumerate_elem.
Qed.

Lemma stop_any ts w j :
  untouched j ts (stop ts w) ∨
  ∃ oe, j < length ts ∧ visited stop_body j oe ts (stop ts w) ∧
        ∀ x, oe = Some x → r_value (stop ts w) = inl x.
Proof.
  destruct (walk_any stop_body stop_body_slot (reverse_enumerate ts) 0 ts w j)
    as [H|(oe & Hj & H)]; [apply reverse_enumerate_NoDup| |by left|].
  - intros i. apply reverse_enumerate_elem.
  - right. exists oe. by rewrite <- reverse_enumerate_elem.
Qed.

(** A slot that is running is left alone by [start], one that is not is
    left alone by [stop]. *)
Lemma start_skips ts w j s :
  ts !! j = Some s → running s = true → untouched j ts (start ts w).
Proof.
  intros Hs Hrun. destruct (start_any ts w j)
    as [H|(oe & _ & (s' & c & w' & H1 & H2 & H3 & _) & _)]; [done|].
  assert (s' = s) as -> by congruence.
  rewrite start_body_skip in H2, H3 by done. simpl in *.
  split; congruence.
Qed.

Lemma stop_skips ts w j s :
  ts !! j = Some s → running s = false → untouched j ts (stop ts w).
Proof.
  intros Hs Hrun. destruct (stop_any ts w j)
    as [H|(oe & _ & (s' & c & w' & H1 & H2 & H3 & _) & _)]; [done|].
  assert (s' = s) as -> by congruence.
  rewrite stop_body_skip in H2, H3 by done. simpl in *.
  split; congruence.
Qed.

(** What an operation that returns has done to each slot. *)
Lemma start_returns ts w n j s :
  r_value (start ts w) = inr n → ts !! j = Some s →
  ∃ c c' w', r_value (start_body j c s w') = inr c' ∧
    r_state (start ts w) !! j = Some (r_state (start_body j c s w')) ∧
    slot_events j (r_events (start ts w)) = r_events (start_body j c s w').
Proof.
  intros Hv Hs.
  destruct (walk_ok start_body start_body_slot (enumerate ts) 0 ts w n
              (enumerate_NoDup ts) Hv j) as (s' & c & w' & H1 & H2 & H3 & H4).
  { apply enumerate_elem. by eapply lookup_lt_Some. }
  assert (s' = s) as -> by congruence.
  destruct (r_value (start_body j c s w')) as [x|c'] eqn:E; [done|].
  by exists c, c', w'.
Qed.

Lemma stop_returns ts w n j s :
  r_value (stop ts w) = inr n → ts !! j = Some s →
  ∃ c c' w', r_value (stop_body j c s w') = inr c' ∧
    r_state (stop ts w) !! j = Some (r_state (stop_body j c s w')) ∧
    slot_events j (r_events (stop ts w)) = r_events (stop_body j c s w').
Proof.
  intros Hv Hs.
  destruct (walk_ok stop_body stop_body_slot (reverse_enumerate ts) 0 ts w n
              (reverse_enumerate_NoDup ts) Hv j)
    as (s' & c & w' & H1 & H2 & H3 & H4).
  { apply reverse_enumerate_elem. by eapply lookup_lt_Some. }
  assert (s' = s) as -> by congruence.
  destruct (r_value (stop_body j c s w')) as [x|c'] eqn:E; [done|].
  by exists c, c', w'.
Qed.

(** The counts returned. *)
Lemma start_count ts w n :
  r_value (start ts w) = inr n → n = to_start ts.
Proof.
  intros Hv.
  rewrite (walk_count start_body start_body_slot (λ s, if bool_decide (running s = false) then 1 else 0)
             (enumerate ts) 0 ts w n); [|..|done].
  - simpl. unfold enumerate, to_start.
    rewrite (sum_over_indices _ [] ts). apply sum_indicator.
  - intros i c s w' c'. apply start_body_count.
  - apply enumerate_NoDup.
Qed.

Lemma stop_count ts w n :
  r_value (stop ts w) = inr n → n = to_join ts.
Proof.
  intros Hv.
  rewrite (walk_count stop_body stop_body_slot (λ s, if bool_decide (running s = true) then 1 else 0)
             (reverse_enumerate ts) 0 ts w n); [|..|done].
  - simpl. unfold reverse_enumerate, to_join.
    rewrite sum_list_with_reverse, (sum_over_indices _ [] ts).
    apply sum_indicator.
  - intros i c s w' c'. apply stop_body_count.
  - apply reverse_enumerate_NoDup.
Qed.

(** After a [start] that returns every slot is running; after a [stop]
    that returns none is. *)
Lemma start_all_running ts w n :
  r_value (start ts w) = inr n →
  Forall (λ s, running s = true) (r_state (start ts w)).
Proof.
  intros Hv. apply Forall_lookup. intros j s' Hs'.
  destruct (lookup_lt_is_Some_2 ts j) as [s Hs].
  { rewrite <- (start_length ts w). by eapply lookup_lt_Some. }
  destruct (start_returns ts w n j s Hv Hs) as (c & c' & w' & Hb & H2 & _).
  rewrite H2 in Hs'. injection Hs' as <-.
  destruct (running s) eqn:Hrun.
  - by rewrite start_body_skip.
  - destruct (start_body_ok j c s w' c' Hb Hrun) as (_ & t & Ht & Hst & _).
    unfold running. by rewrite Ht, Hst.
Qed.

Lemma stop_none_running ts w n :
  r_value (stop ts w) = inr n →
  Forall (λ s, running s = false) (r_state (stop ts w)).
Proof.
  intros Hv. apply Forall_lookup. intros j s' Hs'.
  destruct (lookup_lt_is_Some_2 ts j) as [s Hs].
  { rewrite <- (stop_length ts w). by eapply lookup_lt_Some. }
  destruct (stop_returns ts w n j s Hv Hs) as (c & c' & w' & Hb & H2 & _).
  rewrite H2 in Hs'. injection Hs' as <-.
  destruct (running s) eqn:Hrun.
  - by destruct (stop_body_ok j c s w' c' Hb Hrun) as (_ & -> & _).
  - by rewrite stop_body_skip.
Qed.

(** With nothing to do, the operations do nothing. *)
Lemma start_noop ts w :
  Forall (λ s, running s = true) ts → start ts w = Res ts w [] (inr 0).
Proof.
  intros Hall. apply walk_noop. intros i Hi%enumerate_elem.
  destruct (lookup_lt_is_Some_2 ts i Hi) as [s Hs].
  exists s. split; [done|]. intros c w'. apply start_body_skip.
  rewrite Forall_forall in Hall. apply Hall. by eapply list_elem_of_lookup_2.
Qed.

Lemma stop_noop ts w :
  Forall (λ s, running s = false) ts → stop ts w = Res ts w [] (inr 0).
Proof.
  intros Hall. apply walk_noop. intros i Hi%reverse_enumerate_elem.
  destruct (lookup_lt_is_Some_2 ts i Hi) as [s Hs].
  exists s. split; [done|]. intros c w'. apply stop_body_skip.
  rewrite Forall_forall in Hall. apply Hall. by eapply list_elem_of_lookup_2.
Qed.

Lemma to_start_pos ts s : s ∈ ts → running s = false → to_start ts ≠ 0.
Proof.
  intros Hin Hrun. unfold to_start.
  assert (s ∈ filter (λ s, running s = false) ts) as H
    by (by apply list_elem_of_filter).
  destruct (filter _ ts); [by apply elem_of_nil in H|done].
Qed.

Lemma to_join_pos ts s : s ∈ ts → running s = true → to_join ts ≠ 0.
Proof.
  intros Hin Hrun. unfold to_join.
  assert (s ∈ filter (λ s, running s = true) ts) as H
    by (by apply list_elem_of_filter).
  destruct (filter _ ts); [by apply elem_of_nil in H|done].
Qed.

(** Where a call raised: [start] had gone through the slots before it
    and has not reached the slots after it; [stop], the other way round. *)
Lemma start_raise_at ts w e x :
  e ∈ r_events (start ts w) → ev_exn e = Some x →
  r_value (start ts w) = inl x ∧
  last (r_events (start ts w)) = Some e ∧
  visited start_body (ev_slot e) (Some x) ts (start ts w) ∧
  (∀ j, j < ev_slot e → visited start_body j None ts (start ts w)) ∧
  (∀ j, ev_slot e < j → untouched j ts (start ts w)).
Proof.
  intros He Hx.
  assert (∀ i c s w e x, e ∈ r_events (start_body i c s w) →
            ev_exn e = Some x →
            r_value (start_body i c s w) = inl x ∧
            last (r_events (start_body i c s w)) = Some e) as Hbr.
  { intros i c s w' e' x' H1 H2.
    by destruct (start_body_raise i c s w' e' x' H1 H2) as (? & ? & _). }
  destruct (walk_raise_at start_body start_body_slot Hbr
              (enumerate ts) 0 ts w e x (enumerate_NoDup ts)
              (λ i, proj1 (enumerate_elem ts i)) He Hx)
    as (Hv & it1 & it2 & Hit & H1 & H2 & H3).
  split; [done|]. split.
  { by apply (walk_raise_last start_body Hbr start_body_quiet _ _ _ _ _ x). }
  split; [done|].
  pose proof (enumerate_sorted ts) as Hsort. rewrite Hit in Hsort.
  apply sorted_split in Hsort as [Hlt Hgt].
  assert (ev_slot e < length ts) as Hlen.
  { apply enumerate_elem. rewrite Hit, elem_of_app, elem_of_cons. auto. }
  split; intros j Hj.
  - apply H1. assert (j ∈ enumerate ts) as Hin by (apply enumerate_elem; lia).
    rewrite Hit in Hin.
    apply elem_of_app in Hin as [Hin|[->|Hin]%elem_of_cons]; [done|lia|].
    specialize (Hgt j Hin). lia.
  - destruct (decide (j < length ts)) as [Hjl|Hjl].
    + apply H3. assert (j ∈ enumerate ts) as Hin by (by apply enumerate_elem).
      rewrite Hit in Hin.
      apply elem_of_app in Hin as [Hin|[->|Hin]%elem_of_cons]; [|lia|done].
      specialize (Hlt j Hin). lia.
    + apply (walk_frame start_body start_body_slot).
      rewrite enumerate_elem. lia.
Qed.

Lemma stop_raise_at ts w e x :
  e ∈ r_events (stop ts w) → ev_exn e = Some x →
  r_value (stop ts w) = inl x ∧
  last (r_events (stop ts w)) = Some e ∧
  visited stop_body (ev_slot e) (Some x) ts (stop ts w) ∧
  (∀ j, ev_slot e < j < length ts → visited stop_body j None ts (stop ts w)) ∧
  (∀ j, j < ev_slot e → untouched j ts (stop ts w)).
Proof.
  intros He Hx.
  assert (∀ i c s w e x, e ∈ r_events (stop_body i c s w) →
            ev_exn e = Some x →
            r_value (stop_body i c s w) = inl x ∧
            last (r_events (stop_body i c s w)) = Some e) as Hbr.
  { intros i c s w' e' x' H1 H2.
    by destruct (stop_body_raise i c s w' e' x' H1 H2) as (? & ? & _). }
  destruct (walk_raise_at stop_body stop_body_slot Hbr
              (reverse_enumerate ts) 0 ts w e x (reverse_enumerate_NoDup ts)
              (λ i, proj1 (reverse_enumerate_elem ts i)) He Hx)
    as (Hv & it1 & it2 & Hit & H1 & H2 & H3).
  split; [done|]. split.
  { by apply (walk_raise_last stop_body Hbr stop_body_quiet _ _ _ _ _ x). }
  split; [done|].
  pose proof (reverse_enumerate_sorted ts) as Hsort. rewrite Hit in Hsort.
  apply sorted_split in Hsort as [Hlt Hgt]. unfold flip in *.
  split; intros j Hj.
  - apply H1.
    assert (j ∈ reverse_enumerate ts) as Hin
      by (apply reverse_enumerate_elem; lia).
    rewrite Hit in Hin.
    apply elem_of_app in Hin as [Hin|[->|Hin]%elem_of_cons]; [done|lia|].
    specialize (Hgt j Hin). lia.
  - apply H3.
    assert (ev_slot e < length ts) as Hlen.
    { apply reverse_enumerate_elem.
      rewrite Hit, elem_of_app, elem_of_cons. auto. }
    assert (j ∈ reverse_enumerate ts) as Hin
      by (apply reverse_enumerate_elem; lia).
    rewrite Hit in Hin.
    apply elem_of_app in Hin as [Hin|[->|Hin]%elem_of_cons]; [|lia|done].
    specialize (Hlt j Hin). lia.
Qed.

Lemma not_running s :
  running s = false ↔ thread s = None ∨ started s = false.
Proof.
  destruct s as [b [t|] [|]]; unfold running; simpl;
    intuition congruence.
Qed.

Lemma is_running s :
  running s = true ↔ thread s ≠ None ∧ started s = true.
Proof.
  destruct s as [b [t|] [|]]; unfold running; simpl;
    intuition congruence.
Qed.




Lemma start_raised_event ts w x :
  r_value (start ts w) = inl x →
  ∃ e, e ∈ r_events (start ts w) ∧ ev_exn e = Some x.
Proof.
  apply walk_raised_event.
  - intros i c s w' y Hv.
    destruct (start_body_raised i c s w' y Hv) as (e & Hl & Hx).
    exists e. split; [|done]. apply last_Some in Hl as [l ->].
    apply elem_of_app. right. by left.
  - intros i. apply enumerate_elem.
Qed.

(** The slots before a call that raised are running. *)
Lemma start_raise_before ts w e x k sk :
  e ∈ r_events (start ts w) → ev_exn e = Some x →
  k < ev_slot e → r_state (start ts w) !! k = Some sk → running sk = true.
Proof.
  intros He Hx Hk Hsk.
  destruct (start_raise_at ts w e x He Hx) as (_ & _ & _ & Hlt & _).
  destruct (Hlt k Hk) as (s & c & w' & Hs & H2 & _ & Hok).
  rewrite H2 in Hsk. injection Hsk as <-.
  destruct (r_value (start_body k c s w')) as [y|c'] eqn:Hb; [done|].
  destruct (running s) eqn:Hrun.
  - by rewrite start_body_skip.
  - destruct (start_body_ok k c s w' c' Hb Hrun) as (_ & t & Ht & Hst & _).
    unfold running. by rewrite Ht, Hst.
Qed.

(** [start] reaches the first slot that is not running. *)
Lemma start_reaches ts w j s :
  ts !! j = Some s → running s = false →
  (∀ k sk, k < j → ts !! k = Some sk → running sk = true) →
  ∃ c w',
    r_state (start ts w) !! j = Some (r_state (start_body j c s w')) ∧
    slot_events j (r_events (start ts w)) = r_events (start_body j c s w').
Proof.
  intros Hs Hrun Hbefore.
  destruct (r_value (start ts w)) as [y|m] eqn:Hv.
  - destruct (start_raised_event ts w y Hv) as (e & He & Hx).
    destruct (start_raise_at ts w e y He Hx) as (_ & _ & Hat & Hlt & _).
    destruct (start_event ts w e He) as (sk & c & w' & Hsk & _ & _ & Hin).
    destruct (start_body_visit _ _ _ _ _ Hin) as (Hnot & _).
    destruct (lt_eq_lt_dec (ev_slot e) j) as [[Hlt'|Heq]|Hgt].
    + rewrite (Hbefore _ _ Hlt' Hsk) in Hnot. done.
    + rewrite Heq in Hat. destruct Hat as (s' & c' & w'' & H1 & H2 & H3 & _).
      assert (s' = s) as -> by congruence. by exists c', w''.
    + destruct (Hlt j Hgt) as (s' & c' & w'' & H1 & H2 & H3 & _).
      assert (s' = s) as -> by congruence. by exists c', w''.
  - destruct (start_returns ts w m j s Hv Hs) as (c & c' & w' & _ & H2 & H3).
    by exists c, w'.
Qed.

(** ** [bind] *)

Lemma bind_accepts (b : ThreadBuilder World) ts w :
  validate b callables = None →
  bind b ts w = Res (ts ++ [Slot b None false]) w [] (inr tt).
Proof. intros H. unfold bind. by rewrite H. Qed.

Lemma bind_state (b : ThreadBuilder World) ts w :
  r_state (bind b ts w) = ts ∨
  r_state (bind b ts w) = ts ++ [Slot b None false].
Proof. unfold bind. destruct (validate b callables); auto. Qed.

Lemma bind_silent (b : ThreadBuilder World) ts w :
  r_events (bind b ts w) = [] ∧ r_world (bind b ts w) = w.
Proof. unfold bind. by destruct (validate b callables). Qed.

End bundle_facts.

(** * The claims about the bundle *)

Section claims.

Context {World : Type}.
Implicit Types (s : slot World) (ts : list (slot World)) (w : World).
Implicit Types (b : ThreadBuilder World).

(** ** Validation in [bind] *)

(** C6. [bind] raises [ValueError] when the factory is [None] or not
    callable, or when one of the four hooks is given and not callable; the
    error names an argument that is indeed not callable, and the bundle is
    returned as it was: same slots (so the same [len]), nothing called, the
    world untouched. *)
Theorem bind_rejects_invalid b ts w :
  shape_of (thread_factory b) ≠ IsCallable ∨
  shape_of (before_start b) = IsNotCallable ∨
  shape_of (after_start b) = IsNotCallable ∨
  shape_of (before_join b) = IsNotCallable ∨
  shape_of (after_join b) = IsNotCallable →
  ∃ a, callable (getattr b a) = false ∧
       bind b ts w = Res ts w [] (inl (not_callable a)) ∧
       len (r_state (bind b ts w)) = len ts.
Proof.
  intros H.
  assert (∃ a, validate b callables = Some a ∧ callable (getattr b a) = false)
    as (a & Hv & Ha).
  { destruct b as [[| |?] [| |?] [| |?] [| |?] [| |?]]; simpl in *;
      first [ by (eexists; split; reflexivity)
            | exfalso; intuition congruence ]. }
  exists a. unfold bind. rewrite Hv. done.
Qed.

(** ** The invariant of the slots *)

Lemma run_op_slot_ok (o : op World) ts w :
  Forall slot_ok ts → Forall slot_ok (run_op o ts w).1.1.
Proof.
  intros Hts. destruct o as [b| | |f]; simpl.
  - pose proof (bind_state b ts w) as Hb.
    destruct (bind b ts w) as [ts1 w1 ev1 v1]; simpl in *.
    destruct Hb as [->| ->]; [done|].
    apply Forall_app. split; [done|]. repeat constructor. by intros ?.
  - pose proof (walk_preserves start_body slot_ok (enumerate ts) 0 ts w
                  (λ i c s w, start_body_slot_ok i c s w) Hts) as H.
    fold (start ts w) in H. by destruct (start ts w).
  - pose proof (walk_preserves stop_body slot_ok (reverse_enumerate ts) 0 ts w
                  (λ i c s w, stop_body_slot_ok i c s w) Hts) as H.
    fold (stop ts w) in H. by destruct (stop ts w).
  - done.
Qed.

Lemma run_ops_slot_ok (os : list (op World)) ts w :
  Forall slot_ok ts → Forall slot_ok (run_ops os ts w).1.1.
Proof.
  revert ts w. induction os as [|o os IH]; intros ts w Hts; simpl; [done|].
  pose proof (run_op_slot_ok o ts w Hts) as H1.
  destruct (run_op o ts w) as [[ts1 w1] ev1]. simpl in H1.
  specialize (IH ts1 w1 H1).
  by destruct (run_ops os ts1 w1) as [[ts2 w2] ev2].
Qed.

(** C2. Whatever sequence of [bind], [start] and [stop] calls is made on a
    new bundle (with any callbacks, raising or not, and anything happening
    in between), every slot with [started = True] holds a thread; so a slot
    without a thread has [started = False]. *)
Theorem started_implies_thread (os : list (op World)) w :
  Forall (λ s, (started s = true → thread s ≠ None) ∧
               (thread s = None → started s = false))
    (run_ops os init w).1.1.
Proof.
  eapply Forall_impl; [apply run_ops_slot_ok; constructor|].
  intros s Hs. split; [exact Hs|].
  intros Ht. destruct (started s) eqn:E; [|done]. by destruct Hs.
Qed.

(** ** Idempotence *)

(** C8. [start] on a bundle whose slots are all running calls nothing,
    changes nothing and returns 0; so after a [start] that returned, a
    second [start] returns 0, while the first returned the number of slots
    it had to start, which is not 0 as soon as one slot was not running.
    The same holds for [stop], with the slots that are running. *)
Theorem start_stop_idempotent ts w :
  (Forall (λ s, running s = true) ts → start ts w = Res ts w [] (inr 0)) ∧
  (∀ n, r_value (start ts w) = inr n →
     n = to_start ts ∧
     ((∃ s, s ∈ ts ∧ running s = false) → n ≠ 0) ∧
     ∀ w', start (r_state (start ts w)) w'
           = Res (r_state (start ts w)) w' [] (inr 0)) ∧
  (Forall (λ s, running s = false) ts → stop ts w = Res ts w [] (inr 0)) ∧
  (∀ n, r_value (stop ts w) = inr n →
     n = to_join ts ∧
     ((∃ s, s ∈ ts ∧ running s = true) → n ≠ 0) ∧
     ∀ w', stop (r_state (stop ts w)) w'
           = Res (r_state (stop ts w)) w' [] (inr 0)).
Proof.
  split; [apply start_noop|]. split; [|split; [apply stop_noop|]].
  - intros n Hv. pose proof (start_count ts w n Hv) as ->.
    split; [done|]. split.
    + intros (s & Hin & Hrun). by eapply to_start_pos.
    + intros w'. apply start_noop. by eapply start_all_running.
  - intros n Hv. pose proof (stop_count ts w n Hv) as ->.
    split; [done|]. split.
    + intros (s & Hin & Hrun). by eapply to_join_pos.
    + intros w'. apply stop_noop. by eapply stop_none_running.
Qed.

(** ** The walk of [start] *)


(** ** The walk of [stop] *)


(** ** Callbacks that raise *)

(** C5. When [after_start] raises, [start] raises that exception with the
    slot's [started] flag set and its thread in place; when [after_join]
    raises, [stop] raises that exception with the slot reset to no thread,
    not started. *)
Theorem after_hook_failure_keeps_books ts w e x :
  ev_exn e = Some x →
  (e ∈ r_events (start ts w) → ev_call e = AfterStart →
     r_value (start ts w) = inl x ∧
     ∃ s t, r_state (start ts w) !! ev_slot e = Some s ∧
            started s = true ∧ thread s = Some t ∧
            ev_thread e = Some (ident t)) ∧
  (e ∈ r_events (stop ts w) → ev_call e = AfterJoin →
     r_value (stop ts w) = inl x ∧
     ∃ s, r_state (stop ts w) !! ev_slot e = Some s ∧
          thread s = None ∧ started s = false).
Proof.
  intros Hx. split; intros He Hc.
  - destruct (start_raise_at ts w e x He Hx) as (Hv & _).
    split; [done|].
    destruct (start_event ts w e He) as (s & c & w' & Hs & H2 & _ & Hin).
    destruct (start_body_raise _ _ _ _ _ _ Hin Hx)
      as (_ & _ & _ & Hafter).
    destruct (Hafter Hc) as (Hst & t & Ht & Hid).
    by exists (r_state (start_body (ev_slot e) c s w')), t.
  - destruct (stop_raise_at ts w e x He Hx) as (Hv & _).
    split; [done|].
    destruct (stop_event ts w e He) as (s & c & w' & Hs & H2 & _ & Hin).
    destruct (stop_body_raise _ _ _ _ _ _ Hin Hx)
      as (_ & _ & _ & Hafter).
    rewrite (Hafter Hc) in H2. eexists. split; [exact H2|]. done.
Qed.

(** C7. When a factory or a [before_start] raises during [start], [start]
    raises that exception and makes no further call; the slots after the
    failing one are neither called for nor changed, every slot before it
    is running (one that already was is unchanged), and the failing slot
    keeps its [started] flag. *)
Theorem start_failure_stops_walk ts w e x :
  e ∈ r_events (start ts w) →
  ev_call e = Factory ∨ ev_call e = BeforeStart →
  ev_exn e = Some x →
  r_value (start ts w) = inl x ∧
  last (r_events (start ts w)) = Some e ∧
  (∀ j, ev_slot e < j →
     r_state (start ts w) !! j = ts !! j ∧
     slot_events j (r_events (start ts w)) = []) ∧
  (∀ j s, j < ev_slot e → ts !! j = Some s →
     ∃ s', r_state (start ts w) !! j = Some s' ∧
           thread s' ≠ None ∧ started s' = true ∧
           (running s = true → s' = s)) ∧
  (∃ s s', ts !! ev_slot e = Some s ∧
           r_state (start ts w) !! ev_slot e = Some s' ∧
           started s' = started s).
Proof.
  intros He Hc Hx.
  destruct (start_raise_at ts w e x He Hx) as (Hv & Hlast & _ & Hlt & Hgt).
  split; [done|]. split; [done|]. split; [|split].
  - intros j Hj. apply Hgt, Hj.
  - intros j s Hj Hs.
    destruct (Hlt j Hj) as (s0 & c & w' & Hs0 & H2 & _ & Hok).
    assert (s0 = s) as -> by congruence.
    exists (r_state (start_body j c s w')). split; [done|].
    destruct (r_value (start_body j c s w')) as [y|c'] eqn:Hb; [done|].
    destruct (running s) eqn:Hrun.
    + rewrite start_body_skip by done. simpl.
      apply is_running in Hrun as [? ?]. done.
    + destruct (start_body_ok j c s w' c' Hb Hrun) as (_ & t & Ht & Hst & _).
      rewrite Ht. done.
  - destruct (start_event ts w e He) as (s & c & w' & Hs & H2 & _ & Hin).
    exists s, (r_state (start_body (ev_slot e) c s w')).
    split; [done|]. split; [done|].
    destruct (start_body_raise _ _ _ _ _ _ Hin Hx) as (_ & _ & Hkeep & _).
    apply Hkeep. destruct Hc as [-> | ->]; done.
Qed.

(** ** Starting again after a stop *)

(** C9. A [stop] that returns leaves a slot it joined with no thread and
    not started.  A later [start] that returns has called the factory of
    that slot, once, and the slot holds the thread that this call
    returned, started; whenever a later [start] calls out for that slot at
    all, its first call is to the factory, and the slot holds what the
    factory returned. *)
Theorem restart_builds_new_thread ts w n j s :
  ts !! j = Some s → running s = true → r_value (stop ts w) = inr n →
  r_state (stop ts w) !! j = Some (Slot (builder s) None false) ∧
  ∀ w',
    (∀ m, r_value (start (r_state (stop ts w)) w') = inr m →
       ∃ t' wf wf',
         py_call (thread_factory (builder s)) wf = (wf', inr (Some t')) ∧
         head (slot_events j (r_events (start (r_state (stop ts w)) w')))
           = Some (Ev Factory j (Some (ident t')) None) ∧
         calls Factory
           (slot_events j (r_events (start (r_state (stop ts w)) w')))
           = [Ev Factory j (Some (ident t')) None] ∧
         r_state (start (r_state (stop ts w)) w') !! j
           = Some (Slot (builder s) (Some t') true)) ∧
    (∀ e, e ∈ r_events (start (r_state (stop ts w)) w') → ev_slot e = j →
       ∃ wf wf' v,
         py_call (thread_factory (builder s)) wf = (wf', v) ∧
         head (slot_events j (r_events (start (r_state (stop ts w)) w')))
           = Some (Ev Factory j
                     (match v with inr t => id_of t | inl _ => None end)
                     (exn_of v)) ∧
         ∀ t', v = inr t' →
           ∃ s', r_state (start (r_state (stop ts w)) w') !! j = Some s' ∧
                 thread s' = t').
Proof.
  intros Hs Hrun Hv.
  destruct (stop_returns ts w n j s Hv Hs) as (c & c' & w0 & Hb & H2 & _).
  destruct (stop_body_ok j c s w0 c' Hb Hrun) as (_ & Hst & _).
  rewrite Hst in H2. split; [done|]. intros w'. split.
  - intros m Hm.
    destruct (start_returns _ w' m j _ Hm H2) as (c1 & c1' & w1 & Hb1 & H3 & H4).
    destruct (start_body_fresh_ok j c1 (Slot (builder s) None false) w1 c1'
                eq_refl Hb1)
      as (t' & wf' & Hcall & Hhead & Hcalls & Hstate).
    exists t', w1, wf'. rewrite H3, H4, Hstate. done.
  - intros e He <-.
    destruct (start_event _ w' e He) as (s1 & c1 & w1 & Hs1 & H3 & H4 & _).
    rewrite H2 in Hs1. injection Hs1 as <-.
    destruct (start_body_fresh (ev_slot e) c1 (Slot (builder s) None false)
                w1 eq_refl)
      as (wf' & v & Hcall & Hhead & Hres).
    exists w1, wf', v. rewrite H3, H4. split; [done|]. split; [done|].
    intros t' ->. eexists. split; [done|]. exact Hres.
Qed.

(** ** Joins only follow starts *)

Lemma joins_follow_starts_app (pre evs : list event) :
  joins_follow_starts pre →
  (∀ e, e ∈ evs → join_call (ev_call e) = true →
     ∃ tid, ev_thread e = Some tid ∧
            Ev ThreadStart (ev_slot e) (Some tid) None ∈ pre) →
  joins_follow_starts (pre ++ evs).
Proof.
  intros Hpre Hevs k e Hk Hj.
  destruct (decide (k < length pre)) as [Hlt|Hge].
  - rewrite lookup_app_l in Hk by done.
    destruct (Hpre k e Hk Hj) as (tid & k' & ? & ? & ?).
    exists tid, k'. split; [done|]. split; [done|].
    rewrite lookup_app_l by lia. done.
  - rewrite lookup_app_r in Hk by lia.
    destruct (Hevs e (list_elem_of_lookup_2 _ _ _ Hk) Hj) as (tid & ? & Hin).
    apply list_elem_of_lookup_1 in Hin as [k' Hk'].
    exists tid, k'. split; [done|].
    pose proof (lookup_lt_Some _ _ _ Hk'). split; [lia|].
    rewrite lookup_app_l by lia. done.
Qed.

Lemma run_op_logged (o : op World) ts w pre :
  Forall slot_ok ts → started_logged ts pre → joins_follow_starts pre →
  started_logged (run_op o ts w).1.1 (pre ++ (run_op o ts w).2) ∧
  joins_follow_starts (pre ++ (run_op o ts w).2).
Proof.
  intros Hok Hlog Hpre. destruct o as [b| | |f]; simpl.
  - pose proof (bind_state b ts w) as Hb.
    pose proof (bind_silent b ts w) as [He _].
    destruct (bind b ts w) as [ts1 w1 ev1 v1]; simpl in *. subst ev1.
    rewrite app_nil_r. split; [|done].
    destruct Hb as [->| ->]; [done|].
    intros j s t Hj Hst Ht. apply lookup_app_Some in Hj as [Hj|[_ Hj]].
    + by eapply Hlog.
    + apply list_lookup_singleton_Some in Hj as [_ <-]. done.
  - pose proof (start_any ts w) as Hany.
    pose proof (start_event ts w) as Hev.
    destruct (start ts w) as [ts1 w1 ev1 v1]; simpl in *. split.
    + intros j s1 t Hj Hst Ht. apply elem_of_app.
      destruct (Hany j)
        as [[H1 _]|(oe & _ & (s & c & w' & H1 & H2 & H3 & _) & _)];
        simpl in *.
      * left. rewrite H1 in Hj. by eapply Hlog.
      * rewrite H2 in Hj. injection Hj as <-.
        assert (slot_ok s) as Hs.
        { rewrite Forall_forall in Hok. apply Hok.
          by eapply list_elem_of_lookup_2. }
        destruct (start_body_started j c s w' t Hs Hst Ht) as [Heq|Hin].
        -- left. rewrite Heq in Hst, Ht. by eapply Hlog.
        -- right. rewrite <- H3 in Hin. by apply slot_events_elem in Hin as [? _].
    + apply joins_follow_starts_app; [done|]. intros e He Hj.
      destruct (Hev e He) as (s & c & w' & _ & _ & _ & Hin).
      destruct (start_body_visit _ _ _ _ _ Hin) as (_ & Hnj & _). congruence.
  - pose proof (stop_any ts w) as Hany.
    pose proof (stop_event ts w) as Hev.
    destruct (stop ts w) as [ts1 w1 ev1 v1]; simpl in *. split.
    + intros j s1 t Hj Hst Ht. apply elem_of_app. left.
      destruct (Hany j)
        as [[H1 _]|(oe & _ & (s & c & w' & H1 & H2 & _) & _)]; simpl in *.
      * rewrite H1 in Hj. by eapply Hlog.
      * rewrite H2 in Hj. injection Hj as <-.
        destruct (stop_body_state j c s w') as [Heq|Heq];
          rewrite Heq in Hst, Ht; [by eapply Hlog|done].
    + apply joins_follow_starts_app; [done|]. intros e He Hj.
      destruct (Hev e He) as (s & c & w' & Hs & _ & _ & Hin).
      destruct (stop_body_visit _ _ _ _ _ Hin) as (Hrun & _ & Hth).
      apply is_running in Hrun as [Hsome Hst].
      destruct (thread s) as [t|] eqn:Ht; [|done].
      exists (ident t). split; [done|]. by eapply Hlog.
  - rewrite app_nil_r. done.
Qed.

Lemma run_ops_logged (os : list (op World)) ts w pre :
  Forall slot_ok ts → started_logged ts pre → joins_follow_starts pre →
  joins_follow_starts (pre ++ (run_ops os ts w).2).
Proof.
  revert ts w pre.
  induction os as [|o os IH]; intros ts w pre Hok Hlog Hpre; simpl.
  { by rewrite app_nil_r. }
  pose proof (run_op_slot_ok o ts w Hok) as H1.
  pose proof (run_op_logged o ts w pre Hok Hlog Hpre) as [H2 H3].
  destruct (run_op o ts w) as [[ts1 w1] ev1]. simpl in *.
  specialize (IH ts1 w1 (pre ++ ev1) H1 H2 H3).
  destruct (run_ops os ts1 w1) as [[ts2 w2] ev2]. simpl in *.
  by rewrite app_assoc.
Qed.

(** C10. [stop] leaves alone a slot whose [started] flag is false,
    whether or not it holds a thread: it makes no call for it and does not
    change it.  And in the history of any sequence of operations on a new
    bundle, every [before_join], [join] and [after_join] is on a thread for
    which [thread.start()] was called for that slot before, and
    returned. *)
Theorem stop_never_joins_unstarted ts w j s (os : list (op World)) w0 :
  ts !! j = Some s → started s = false →
  (r_state (stop ts w) !! j = Some s ∧
   slot_events j (r_events (stop ts w)) = []) ∧
  joins_follow_starts (run_ops os init w0).2.
Proof.
  intros Hs Hst. split.
  - destruct (stop_skips ts w j s Hs) as [H1 H2].
    { apply not_running. by right. }
    split; congruence.
  - apply (run_ops_logged os init w0 []).
    + constructor.
    + by intros k s' t ?.
    + by intros k e ?.
Qed.

(** ** A [before_start] that raises *)

(** C1, as the code has it. When the [before_start] of a slot bound and
    not yet started raises during [start], on the thread its factory
    returned, [start] raises that exception and the slot holds that thread
    with [started] still false.  A later [start] does not call the factory
    of that slot again: its first call for the slot is [before_start] on
    the thread the slot already holds, and the slot goes on holding it. *)
Theorem failed_before_start_keeps_thread ts w e x tid s :
  e ∈ r_events (start ts w) →
  ev_call e = BeforeStart → ev_exn e = Some x → ev_thread e = Some tid →
  ts !! ev_slot e = Some s → thread s = None → started s = false →
  r_value (start ts w) = inl x ∧
  ∃ t, ident t = tid ∧
    Ev Factory (ev_slot e) (Some tid) None ∈ r_events (start ts w) ∧
    r_state (start ts w) !! ev_slot e
      = Some (Slot (builder s) (Some t) false) ∧
    ∀ w',
      calls Factory
        (slot_events (ev_slot e)
           (r_events (start (r_state (start ts w)) w'))) = [] ∧
      (∃ e2,
         head (slot_events (ev_slot e)
                 (r_events (start (r_state (start ts w)) w'))) = Some e2 ∧
         ev_call e2 = BeforeStart ∧ ev_thread e2 = Some tid) ∧
      (∃ s2, r_state (start (r_state (start ts w)) w') !! ev_slot e
               = Some s2 ∧
             thread s2 = Some t).
Proof.
  intros He Hc Hx Htid Hs Hth Hst.
  destruct (start_raise_at ts w e x He Hx) as (Hv & _).
  split; [done|].
  destruct (start_event ts w e He) as (s0 & c & w1 & Hs0 & H2 & H3 & Hin).
  assert (s0 = s) as -> by congruence.
  destruct (start_body_before_failed _ c s w1 e x tid Hth Hin Hc Hx Htid)
    as (Hhook & t & Hid & Hstate & Hfac).
  rewrite Hstate, Hst in H2.
  exists t. split; [done|]. split.
  { rewrite <- H3 in Hfac. by apply slot_events_elem in Hfac as [? _]. }
  split; [done|]. intros w'.
  destruct (start_reaches (r_state (start ts w)) w' (ev_slot e) _ H2 eq_refl)
    as (c2 & w2 & H4 & H5).
  { intros k sk Hk Hsk. by eapply start_raise_before. }
  destruct (start_body_retry (ev_slot e) c2 (builder s) t w2 Hhook)
    as (Hnof & Hkeep & e2 & rest & Hev & Hc2 & _ & Ht2).
  rewrite H5, H4. split; [done|]. split.
  - exists e2. rewrite Hev. simpl. by rewrite Ht2, Hid.
  - eexists. split; [done|]. done.
Qed.

End claims.

(** * The claims on concrete bundles *)

(** C1, as stated, fails: the registration is bound, its [before_start]
    raises during [start], the thread has been built and [started] is
    false; the next [start] calls [before_start] again and never the
    factory. *)
Lemma before_start_retry_skips_factory :
  let ts := r_state (bind before_start_fails init 0) in
  let r1 := start ts 0 in
  let r2 := start (r_state r1) (r_world r1) in
  r_value r1 = inl (UserError 7) ∧
  r_events r1 = [Ev Factory 0 (Some 0) None;
                 Ev BeforeStart 0 (Some 0) (Some (UserError 7))] ∧
  r_state r1 = [Slot before_start_fails (Some (quiet_thread 0)) false] ∧
  r_events r2 = [Ev BeforeStart 0 (Some 0) (Some (UserError 7))] ∧
  ¬ ∃ e, e ∈ r_events r2 ∧ ev_call e = Factory.
Proof.
  repeat split; try reflexivity.
  intros (e & He & Hc). vm_compute in He.
  apply elem_of_cons in He as [->|He]; [discriminate|].
  by apply elem_of_nil in He.
Qed.

Lemma failed_before_start_witness :
  let ts := bound [before_start_fails] in
  let e := Ev BeforeStart 0 (Some 0) (Some (UserError 7)) in
  e ∈ r_events (start ts 0) ∧
  r_value (start ts 0) = inl (UserError 7).
Proof.
  assert (Ev BeforeStart 0 (Some 0) (Some (UserError 7))
          ∈ r_events (start (bound [before_start_fails]) 0)) as H.
  { vm_compute. apply list_elem_of_further, list_elem_of_here. }
  split; [exact H|].
  exact (proj1 (failed_before_start_keeps_thread
                  (bound [before_start_fails]) 0 _ (UserError 7) 0
                  (Slot before_start_fails None false)
                  H eq_refl eq_refl eq_refl eq_refl eq_refl eq_refl)).
Defined.

Lemma bind_rejects_invalid_witness :
  ∃ a, callable (getattr no_factory a) = false ∧
       bind no_factory (bound [plain_builder]) 0
         = Res (bound [plain_builder]) 0 [] (inl (not_callable a)) ∧
       len (r_state (bind no_factory (bound [plain_builder]) 0))
         = len (bound [plain_builder]).
Proof.
  apply (bind_rejects_invalid no_factory (bound [plain_builder]) 0).
  left. simpl. discriminate.
Defined.

Lemma after_hook_failure_witness :
  r_value (start (bound [after_hooks_fail]) 0) = inl (UserError 8) ∧
  r_value (stop (r_state (start (bound [after_hooks_fail]) 0)) 1)
    = inl (UserError 9).
Proof.
  split.
  - refine (proj1 (proj1 (after_hook_failure_keeps_books
                     (bound [after_hooks_fail]) 0
                     (Ev AfterStart 0 (Some 0) (Some (UserError 8)))
                     (UserError 8) eq_refl) _ eq_refl)).
    vm_compute. do 2 apply list_elem_of_further. apply list_elem_of_here.
  - refine (proj1 (proj2 (after_hook_failure_keeps_books
                     (r_state (start (bound [after_hooks_fail]) 0)) 1
                     (Ev AfterJoin 0 (Some 0) (Some (UserError 9)))
                     (UserError 9) eq_refl) _ eq_refl)).
    vm_compute. apply list_elem_of_further, list_elem_of_here.
Defined.

Lemma start_failure_witness :
  let ts := bound [plain_builder; before_start_fails; plain_builder] in
  r_value (start ts 0) = inl (UserError 7) ∧
  r_state (start ts 0) !! 2 = ts !! 2.
Proof.
  assert (Ev BeforeStart 1 (Some 1) (Some (UserError 7))
          ∈ r_events (start (bound [plain_builder; before_start_fails;
                                    plain_builder]) 0)) as H.
  { vm_compute. do 3 apply list_elem_of_further. apply list_elem_of_here. }
  pose proof (start_failure_stops_walk _ 0 _ (UserError 7) H
                (or_intror eq_refl) eq_refl) as (Hv & _ & Hlater & _).
  split; [exact Hv|]. exact (proj1 (Hlater 2 (le_n 2))).
Defined.

Lemma restart_witness :
  let ts := r_state (start (bound [plain_builder]) 0) in
  r_state (stop ts 1) !! 0 = Some (Slot plain_builder None false).
Proof.
  exact (proj1 (restart_builds_new_thread
                  (r_state (start (bound [plain_builder]) 0)) 1 1 0
                  (Slot plain_builder (Some (quiet_thread 0)) true)
                  eq_refl eq_refl eq_refl)).
Defined.

Lemma stop_never_joins_unstarted_witness :
  let ts := r_state (start (bound [before_start_fails]) 0) in
  ts !! 0 = Some (Slot before_start_fails (Some (quiet_thread 0)) false) ∧
  r_state (stop ts 1) !! 0 = ts !! 0 ∧
  slot_events 0 (r_events (stop ts 1)) = [] ∧
  joins_follow_starts
    (run_ops [OpBind before_start_fails; OpStart; OpStop] init 0).2.
Proof.
  pose proof (stop_never_joins_unstarted
                (r_state (start (bound [before_start_fails]) 0)) 1 0
                (Slot before_start_fails (Some (quiet_thread 0)) false)
                [OpBind before_start_fails; OpStart; OpStop] 0
                eq_refl eq_refl) as [[H1 H2] H3].
  split; [reflexivity|]. split; [exact H1|]. split; [exact H2|exact H3].
Defined.

(** The scenario of three registrations A, B, C without callbacks:
    [start] returns 3 and starts them in the order bound, [stop] returns 3
    and joins them in the order C, B, A, and the bundle still has three
    slots, none of them started. *)
Example three_threads_cycle :
  let ts := bound [plain_builder; plain_builder; plain_builder] in
  let r1 := start ts 0 in
  let r2 := stop (r_state r1) (r_world r1) in
  r_value r1 = inr 3 ∧
  calls ThreadStart (r_events r1)
    = [Ev ThreadStart 0 (Some 0) None; Ev ThreadStart 1 (Some 1) None;
       Ev ThreadStart 2 (Some 2) None] ∧
  r_value r2 = inr 3 ∧
  r_events r2
    = [Ev ThreadJoin 2 (Some 2) None; Ev ThreadJoin 1 (Some 1) None;
       Ev ThreadJoin 0 (Some 0) None] ∧
  len (r_state r2) = 3 ∧
  r_state r2 = ts.
Proof. repeat split; reflexivity. Qed.

(** * More of the module *)

Section more_facts.

Context {World : Type}.
Implicit Types (s : slot World) (ts : list (slot World)) (w : World).
Implicit Types (b : ThreadBuilder World).

Ltac unfold_body :=
  unfold start_body, stop_body, call_factory, _trigger_callback,
    thread_start, thread_join, set_thread, set_started, try_finally, bindM,
    perform, modify, ret, py_call, running, truthy, id_of, exn_of,
    slot_ok, idle, calls in *.

Ltac step_body :=
  match goal with
  | |- context [match ?x with _ => _ end] =>
      lazymatch x with
      | context [match _ with _ => _ end] => fail
      | _ => destruct x eqn:?; simpl in *
      end
  | H : context [match ?x with _ => _ end] |- _ =>
      lazymatch x with
      | context [match _ with _ => _ end] => fail
      | _ => destruct x eqn:?; simpl in *
      end
  end.

Ltac body_cases s :=
  destruct s as [? [?|] [|]];
  unfold_body; simpl in *; repeat step_body.

Ltac pick_event H :=
  repeat (apply elem_of_cons in H as [?|H]);
  try (by apply elem_of_nil in H); simplify_eq; simpl in *; simplify_eq.

Ltac in_order :=
  repeat first [ apply sublist_nil_l | apply sublist_skip | apply sublist_cons ].

(** ** [bind], when it accepts *)

(** The arguments the validation loop lets through: a callable factory
    and hooks that are [None] or callable. *)
Lemma validate_passes b :
  validate b callables = None ↔
  shape_of (thread_factory b) = IsCallable ∧
  shape_of (before_start b) ≠ IsNotCallable ∧
  shape_of (after_start b) ≠ IsNotCallable ∧
  shape_of (before_join b) ≠ IsNotCallable ∧
  shape_of (after_join b) ≠ IsNotCallable.
Proof.
  destruct b as [[| |?] [| |?] [| |?] [| |?] [| |?]]; simpl;
    split; intros H; first [ done | intuition congruence ].
Qed.

(** [bind] returns exactly when the factory is callable and every hook is
    [None] or callable; it then has appended one slot, for the builder
    given, without a thread and not started, after the slots there were,
    which are unchanged; it called nothing. *)
Theorem bind_appends_idle_slot b ts w :
  (r_value (bind b ts w) = inr tt ↔
   shape_of (thread_factory b) = IsCallable ∧
   shape_of (before_start b) ≠ IsNotCallable ∧
   shape_of (after_start b) ≠ IsNotCallable ∧
   shape_of (before_join b) ≠ IsNotCallable ∧
   shape_of (after_join b) ≠ IsNotCallable) ∧
  (r_value (bind b ts w) = inr tt →
   bind b ts w = Res (ts ++ [Slot b None false]) w [] (inr tt) ∧
   len (r_state (bind b ts w)) = S (len ts) ∧
   r_state (bind b ts w) !! len ts = Some (Slot b None false) ∧
   ∀ j s, ts !! j = Some s → r_state (bind b ts w) !! j = Some s).
Proof.
  rewrite <- validate_passes. unfold bind.
  destruct (validate b callables) as [a|] eqn:Hv; simpl.
  - split; [split; done|done].
  - split; [done|]. intros _. split; [done|]. unfold len.
    split; [rewrite length_app; simpl; lia|].
    split; [by rewrite list_lookup_middle|].
    intros j s Hj. by apply lookup_app_l_Some.
Qed.

(** The loop stops at the first argument that does not pass. *)
Lemma validate_first b cs a :
  validate b cs = Some a →
  ∃ pre na post, cs = pre ++ (a, na) :: post ∧
    callable (getattr b a) = false ∧
    (na = true → getattr b a = IsNotCallable) ∧
    Forall (λ c, callable (getattr b c.1) = true ∨
                 (c.2 = true ∧ getattr b c.1 = IsNone)) pre.
Proof.
  induction cs as [|[a' na'] cs IH]; simpl; [done|].
  destruct (getattr b a') eqn:Hg; simpl.
  - destruct na'; simpl.
    + intros (pre & na & post & -> & ? & ? & ?)%IH.
      exists ((a', true) :: pre), na, post. split; [done|].
      split; [done|]. split; [done|]. constructor; [|done]. right. done.
    + intros [= <-]. exists [], false, cs. rewrite Hg. done.
  - intros [= <-]. exists [], na', cs. rewrite Hg. done.
  - intros (pre & na & post & -> & ? & ? & ?)%IH.
    exists ((a', na') :: pre), na, post. split; [done|].
    split; [done|]. split; [done|]. constructor; [|done]. left.
    simpl. by rewrite Hg.
Qed.

(** When [bind] raises, its error names the first argument, in the order
    [thread_factory], [before_start], [after_start], [before_join],
    [after_join], that is not acceptable: that argument is not callable
    (and, for a hook, not [None]), and every argument before it is callable
    or, for a hook, [None]. *)
Theorem bind_reports_first_offender b ts w e :
  r_value (bind b ts w) = inl e →
  ∃ a, e = not_callable a ∧
    callable (getattr b a) = false ∧
    (a ≠ a_thread_factory → getattr b a = IsNotCallable) ∧
    ∀ a', attr_position a' < attr_position a →
      callable (getattr b a') = true ∨
      (a' ≠ a_thread_factory ∧ getattr b a' = IsNone).
Proof.
  unfold bind. destruct (validate b callables) as [a|] eqn:Hv; [|done].
  simpl. intros [= <-]. exists a. split; [done|].
  destruct (validate_first b callables a Hv)
    as (pre & na & post & Hcs & Hnc & Hna & Hpre).
  split; [done|].
  assert (∀ a' na', (a', na') ∈ callables →
            na' = true ↔ a' ≠ a_thread_factory) as Hflag.
  { intros a' na' Hin. unfold callables in Hin.
    repeat (apply elem_of_cons in Hin as [[= -> ->]|Hin]); try done.
    by apply elem_of_nil in Hin. }
  assert ((a, na) ∈ callables) as Hin.
  { rewrite Hcs, elem_of_app, elem_of_cons. auto. }
  split.
  - intros Hne. apply Hna. by apply (Hflag a na).
  - intros a' Hlt.
    assert (∃ na', (a', na') ∈ pre) as [na' Hin'].
    { unfold callables in Hcs.
      destruct pre as [|c0 [|c1 [|c2 [|c3 [|c4 pre]]]]];
        simplify_eq/=; destruct a'; simpl in Hlt; try lia;
        eexists; rewrite !elem_of_cons; eauto 10. }
    rewrite Forall_forall in Hpre.
    destruct (Hpre _ Hin') as [?|[Ht Hn]]; [by left|right].
    simpl in *. split; [|done]. apply (Hflag a' na'); [|done].
    rewrite Hcs, elem_of_app. by left.
Qed.

(** ** Registrations are kept *)

Lemma walk_fmap {B} (f : slot World → B)
    (body : nat → nat → M World (slot World) nat) it c ts w :
  (∀ i c s w, f (r_state (body i c s w)) = f s) →
  f <$> r_state (walk body it c ts w) = f <$> ts.
Proof.
  intros Hb. revert c ts w.
  induction it as [|i it IH]; intros c ts w; simpl; [done|].
  destruct (ts !! i) as [s|] eqn:Hs; [|done].
  specialize (Hb i c s w).
  assert (∀ s1, f s1 = f s → f <$> <[i:=s1]> ts = f <$> ts) as Hins.
  { intros s1 H1. rewrite list_fmap_insert, H1. apply list_insert_id.
    by rewrite list_lookup_fmap, Hs. }
  destruct (body i c s w) as [s1 w1 ev1 [x|c']]; simpl in *.
  - by apply Hins.
  - specialize (IH c' (<[i:=s1]> ts) w1).
    destruct (walk body it c' (<[i:=s1]> ts) w1); simpl in *.
    rewrite IH. by apply Hins.
Qed.

(** Whether they return or raise, [start] and [stop] leave the
    registrations of the bundle as they are: the same builders in the same
    order, hence the same [len]. *)
Theorem start_stop_keep_registrations ts w :
  builder <$> r_state (start ts w) = builder <$> ts ∧
  builder <$> r_state (stop ts w) = builder <$> ts ∧
  len (r_state (start ts w)) = len ts ∧
  len (r_state (stop ts w)) = len ts.
Proof.
  split; [|split; [|split]].
  - apply walk_fmap. intros. apply start_body_builder.
  - apply walk_fmap. intros. apply stop_body_builder.
  - apply start_length.
  - apply stop_length.
Qed.

Lemma run_op_builders (o : op World) ts w :
  builder <$> (run_op o ts w).1.1 = (builder <$> ts) ++ accepted [o].
Proof.
  destruct o as [b| | |f]; unfold accepted.
  - unfold run_op, bind. cbn [omap list_omap].
    destruct (validate b callables); simpl.
    + by rewrite app_nil_r.
    + by rewrite fmap_app.
  - cbn [omap list_omap]. rewrite app_nil_r.
    transitivity (builder <$> r_state (start ts w)).
    + unfold run_op. by destruct (start ts w).
    + apply walk_fmap. intros. apply start_body_builder.
  - cbn [omap list_omap]. rewrite app_nil_r.
    transitivity (builder <$> r_state (stop ts w)).
    + unfold run_op. by destruct (stop ts w).
    + apply walk_fmap. intros. apply stop_body_builder.
  - simpl. by rewrite app_nil_r.
Qed.

Lemma accepted_cons (o : op World) (os : list (op World)) :
  accepted (o :: os) = accepted [o] ++ accepted os.
Proof. unfold accepted. by rewrite <- omap_app. Qed.

(** After any sequence of [bind], [start] and [stop] calls, the bundle
    holds the registrations it held before followed by those of the
    [bind]s that passed the validation, in the order of the calls; so
    [len] of a new bundle is the number of [bind]s that were accepted,
    whatever was started, stopped or raised in between. *)
Theorem bundle_holds_accepted_binds (os : list (op World)) ts w :
  builder <$> (run_ops os ts w).1.1 = (builder <$> ts) ++ accepted os ∧
  len (run_ops os ts w).1.1 = len ts + length (accepted os) ∧
  len (run_ops os init w).1.1 = length (accepted os).
Proof.
  assert (∀ ts w, builder <$> (run_ops os ts w).1.1
                  = (builder <$> ts) ++ accepted os) as H.
  { clear ts w. induction os as [|o os IH]; intros ts w.
    { simpl. by rewrite app_nil_r. }
    rewrite (accepted_cons o os). cbn [run_ops].
    pose proof (run_op_builders o ts w) as H1.
    destruct (run_op o ts w) as [[ts1 w1] ev1]. cbn [fst] in H1.
    specialize (IH ts1 w1).
    destruct (run_ops os ts1 w1) as [[ts2 w2] ev2]. cbn [fst] in *.
    by rewrite IH, H1, <- app_assoc. }
  assert (∀ ts w, len (run_ops os ts w).1.1 = len ts + length (accepted os))
    as Hlen.
  { intros ts' w'. unfold len.
    rewrite <- (length_fmap builder), H, length_app, length_fmap. done. }
  split; [apply H|]. split; [apply Hlen|].
  by rewrite Hlen.
Qed.

(** ** A whole cycle *)

(** When [start] and then [stop] both return, the bundle is back to its
    registrations, each without a thread and not started; a bundle in
    which nothing was started or left half-started is given back exactly
    as it was. *)
Theorem start_stop_round_trip ts w w' n m :
  r_value (start ts w) = inr n →
  r_value (stop (r_state (start ts w)) w') = inr m →
  r_state (stop (r_state (start ts w)) w')
    = (λ s, Slot (builder s) None false) <$> ts ∧
  (Forall idle ts → r_state (stop (r_state (start ts w)) w') = ts).
Proof.
  intros Hv1 Hv2.
  assert (r_state (stop (r_state (start ts w)) w')
          = (λ s, Slot (builder s) None false) <$> ts) as Heq.
  { apply list_eq. intros j. rewrite list_lookup_fmap.
    destruct (ts !! j) as [s|] eqn:Hs; simpl.
    - destruct (start_returns ts w n j s Hv1 Hs)
        as (c & c' & w1 & _ & H1 & _).
      pose proof (start_all_running ts w n Hv1) as Hall.
      rewrite Forall_lookup in Hall. specialize (Hall _ _ H1).
      destruct (stop_returns _ w' m j _ Hv2 H1) as (c2 & c2' & w2 & Hb & H2 & _).
      destruct (stop_body_ok j c2 _ w2 c2' Hb Hall) as (_ & Hst & _).
      by rewrite H2, Hst, start_body_builder.
    - apply lookup_ge_None. rewrite stop_length, start_length.
      by apply lookup_ge_None. }
  split; [done|]. intros Hidle. rewrite Heq.
  clear -Hidle. induction Hidle as [|s l [Ht Hst] _ IH]; [done|].
  rewrite fmap_cons, IH. f_equal.
  destruct s as [b t st]. simpl in *. by subst.
Qed.

(** ** The calls made for one slot *)

Lemma start_body_order i c s w :
  sublist (ev_call <$> r_events (start_body i c s w))
    [Factory; BeforeStart; ThreadStart; AfterStart].
Proof. body_cases s; in_order. Qed.

Lemma stop_body_order i c s w :
  sublist (ev_call <$> r_events (stop_body i c s w))
    [BeforeJoin; ThreadJoin; AfterJoin].
Proof. body_cases s; in_order. Qed.

Lemma start_body_thread i c s w e :
  e ∈ r_events (start_body i c s w) →
  ev_thread e = id_of (thread (r_state (start_body i c s w))).
Proof. body_cases s; intros Hin; pick_event Hin; done. Qed.

(** For every slot, the calls of one [start] come in the order factory,
    [before_start], [thread.start()], [after_start], each at most once,
    and those of one [stop] in the order [before_join], [thread.join()],
    [after_join]; this holds whether the operation returns or raises. *)
Theorem hooks_called_in_order ts w j :
  sublist (ev_call <$> slot_events j (r_events (start ts w)))
    [Factory; BeforeStart; ThreadStart; AfterStart] ∧
  sublist (ev_call <$> slot_events j (r_events (stop ts w)))
    [BeforeJoin; ThreadJoin; AfterJoin].
Proof.
  split.
  - destruct (start_any ts w j)
      as [[_ ->]|(oe & _ & (s & c & w' & _ & _ & -> & _) & _)].
    + apply sublist_nil_l.
    + apply start_body_order.
  - destruct (stop_any ts w j)
      as [[_ ->]|(oe & _ & (s & c & w' & _ & _ & -> & _) & _)].
    + apply sublist_nil_l.
    + apply stop_body_order.
Qed.


(** ** Exceptions come from the calls *)

Lemma stop_raised_event ts w x :
  r_value (stop ts w) = inl x →
  ∃ e, e ∈ r_events (stop ts w) ∧ ev_exn e = Some x.
Proof.
  apply walk_raised_event.
  - intros i c s w' y Hv.
    destruct (stop_body_raised i c s w' y Hv) as (e & Hl & Hx).
    exists e. split; [|done]. apply last_Some in Hl as [l ->].
    apply elem_of_app. right. by left.
  - intros i. apply reverse_enumerate_elem.
Qed.

(** [start] and [stop] raise exactly what one of their calls raised, and
    make no call after it: an operation raises [x] if and only if its last
    call raised [x], and a call that raised is the last one.  So an
    operation that returns has had none of its calls raise, and no
    exception of a callback is swallowed. *)
Theorem exceptions_are_propagated ts w :
  (∀ x, r_value (start ts w) = inl x ↔
        ∃ e, last (r_events (start ts w)) = Some e ∧ ev_exn e = Some x) ∧
  (∀ e x, e ∈ r_events (start ts w) → ev_exn e = Some x →
          last (r_events (start ts w)) = Some e) ∧
  (∀ x, r_value (stop ts w) = inl x ↔
        ∃ e, last (r_events (stop ts w)) = Some e ∧ ev_exn e = Some x) ∧
  (∀ e x, e ∈ r_events (stop ts w) → ev_exn e = Some x →
          last (r_events (stop ts w)) = Some e).
Proof.
  assert (∀ (l : list event) e, last l = Some e → e ∈ l) as Hlast.
  { intros l e [l' ->]%last_Some. apply elem_of_app. right. by left. }
  split; [|split; [|split]].
  - intros x. split.
    + intros (e & He & Hx)%start_raised_event. exists e.
      by destruct (start_raise_at ts w e x He Hx) as (_ & ? & _).
    + intros (e & He%Hlast & Hx).
      by destruct (start_raise_at ts w e x He Hx) as (? & _).
  - intros e x He Hx.
    by destruct (start_raise_at ts w e x He Hx) as (_ & ? & _).
  - intros x. split.
    + intros (e & He & Hx)%stop_raised_event. exists e.
      by destruct (stop_raise_at ts w e x He Hx) as (_ & ? & _).
    + intros (e & He%Hlast & Hx).
      by destruct (stop_raise_at ts w e x He Hx) as (? & _).
  - intros e x He Hx.
    by destruct (stop_raise_at ts w e x He Hx) as (_ & ? & _).
Qed.

(** ** Failures in the middle of [stop] and of [start] *)

(** When a [before_join] or a [thread.join()] raises during [stop],
    [stop] raises that exception and makes no further call; the slot it
    was working on is unchanged, still holding its thread and started, so
    that a later [stop] will find it; the slots before it in the bundle
    have not been reached; each slot after it was joined and reset if it
    was running and is unchanged if it was not. *)
Theorem stop_failure_stops_walk ts w e x :
  e ∈ r_events (stop ts w) →
  ev_call e = BeforeJoin ∨ ev_call e = ThreadJoin →
  ev_exn e = Some x →
  r_value (stop ts w) = inl x ∧
  last (r_events (stop ts w)) = Some e ∧
  r_state (stop ts w) !! ev_slot e = ts !! ev_slot e ∧
  (∃ s, ts !! ev_slot e = Some s ∧ thread s ≠ None ∧ started s = true) ∧
  (∀ j, j < ev_slot e →
     r_state (stop ts w) !! j = ts !! j ∧
     slot_events j (r_events (stop ts w)) = []) ∧
  (∀ j s, ev_slot e < j → ts !! j = Some s →
     r_state (stop ts w) !! j
       = Some (if running s then Slot (builder s) None false else s)).
Proof.
  intros He Hc Hx.
  destruct (stop_raise_at ts w e x He Hx) as (Hv & Hlast & _ & Hgt & Hlt).
  destruct (stop_event ts w e He) as (s & c & w' & Hs & H2 & _ & Hin).
  destruct (stop_body_raise _ _ _ _ _ _ Hin Hx) as (_ & _ & Hkeep & _).
  destruct (stop_body_visit _ _ _ _ _ Hin) as (Hrun & _).
  split; [done|]. split; [done|]. split; [|split; [|split]].
  - rewrite H2, Hs, Hkeep; [done|]. by destruct Hc as [-> | ->].
  - exists s. split; [done|]. by apply is_running.
  - intros j Hj. apply Hlt, Hj.
  - intros j sj Hj Hsj.
    destruct (Hgt j) as (s0 & c0 & w0 & Hs0 & H3 & _ & Hok).
    { split; [done|]. by eapply lookup_lt_Some. }
    assert (s0 = sj) as -> by congruence. rewrite H3. f_equal.
    destruct (r_value (stop_body j c0 sj w0)) as [y|c'] eqn:Hb; [done|].
    destruct (running sj) eqn:Hrj.
    + by destruct (stop_body_ok j c0 sj w0 c' Hb Hrj) as (_ & -> & _).
    + by rewrite stop_body_skip.
Qed.

Lemma start_body_start_failed i c s w e x :
  e ∈ r_events (start_body i c s w) →
  ev_call e = ThreadStart → ev_exn e = Some x →
  calls AfterStart (r_events (start_body i c s w)) = [].
Proof. body_cases s; intros Hin; pick_event Hin; done. Qed.

(** When [thread.start()] raises during [start], [start] raises that
    exception; the slot holds the thread that failed to start, its
    [started] flag is what it was, and [after_start] has not been called
    for it. *)
Theorem thread_start_failure ts w e x :
  e ∈ r_events (start ts w) →
  ev_call e = ThreadStart → ev_exn e = Some x →
  r_value (start ts w) = inl x ∧
  calls AfterStart (slot_events (ev_slot e) (r_events (start ts w))) = [] ∧
  ∃ s s', ts !! ev_slot e = Some s ∧
          r_state (start ts w) !! ev_slot e = Some s' ∧
          started s' = started s ∧
          ev_thread e = id_of (thread s').
Proof.
  intros He Hc Hx.
  destruct (start_raise_at ts w e x He Hx) as (Hv & _).
  destruct (start_event ts w e He) as (s & c & w' & Hs & H2 & H3 & Hin).
  destruct (start_body_raise _ _ _ _ _ _ Hin Hx) as (_ & _ & Hkeep & _).
  split; [done|]. split.
  - rewrite H3. by eapply start_body_start_failed.
  - exists s, (r_state (start_body (ev_slot e) c s w')).
    split; [done|]. split; [done|]. split.
    + apply Hkeep. by rewrite Hc.
    + by apply start_body_thread.
Qed.


(** After a [start] that raised, a new [start] makes no call for the slots
    before the one that failed and leaves them as they are: they are
    running, and are not started twice; the retry begins at the slot that
    failed or after it. *)
Theorem retry_skips_started_slots ts w e x w' :
  e ∈ r_events (start ts w) → ev_exn e = Some x →
  (∀ j, j < ev_slot e →
     r_state (start (r_state (start ts w)) w') !! j
       = r_state (start ts w) !! j ∧
     slot_events j (r_events (start (r_state (start ts w)) w')) = []) ∧
  (∀ e', e' ∈ r_events (start (r_state (start ts w)) w') →
     ev_slot e ≤ ev_slot e').
Proof.
  intros He Hx.
  assert (∀ j, j < ev_slot e →
            untouched j (r_state (start ts w))
              (start (r_state (start ts w)) w')) as Hun.
  { intros j Hj.
    destruct (start_event ts w e He) as (s & _ & _ & Hs & _).
    destruct (lookup_lt_is_Some_2 (r_state (start ts w)) j) as [sj Hsj].
    { rewrite start_length. apply lookup_lt_Some in Hs. lia. }
    apply (start_skips _ w' j sj Hsj).
    by eapply start_raise_before. }
  split; [exact Hun|].
  intros e' He'. destruct (decide (ev_slot e ≤ ev_slot e')) as [|Hlt]; [done|].
  destruct (Hun (ev_slot e') ltac:(lia)) as [_ Hno].
  assert (e' ∈ slot_events (ev_slot e')
                 (r_events (start (r_state (start ts w)) w'))) as Hin
    by (by apply slot_events_elem).
  rewrite Hno in Hin. by apply elem_of_nil in Hin.
Qed.

(** ** Hooks that were not given *)

Lemma start_body_hooks i c s w e :
  e ∈ r_events (start_body i c s w) →
  (ev_call e = BeforeStart → before_start (builder s) ≠ PyNone) ∧
  (ev_call e = AfterStart → after_start (builder s) ≠ PyNone).
Proof. body_cases s; intros Hin; pick_event Hin; split; congruence. Qed.

Lemma stop_body_hooks i c s w e :
  e ∈ r_events (stop_body i c s w) →
  (ev_call e = BeforeJoin → before_join (builder s) ≠ PyNone) ∧
  (ev_call e = AfterJoin → after_join (builder s) ≠ PyNone).
Proof. body_cases s; intros Hin; pick_event Hin; split; congruence. Qed.

(** A hook that is [None] in a registration is never called for its slot:
    every [before_start], [after_start], [before_join] or [after_join]
    call that [start] or [stop] makes is for a slot whose registration has
    that hook. *)
Theorem absent_hooks_not_called ts w e :
  (e ∈ r_events (start ts w) →
   ∃ s, ts !! ev_slot e = Some s ∧
     (ev_call e = BeforeStart → before_start (builder s) ≠ PyNone) ∧
     (ev_call e = AfterStart → after_start (builder s) ≠ PyNone)) ∧
  (e ∈ r_events (stop ts w) →
   ∃ s, ts !! ev_slot e = Some s ∧
     (ev_call e = BeforeJoin → before_join (builder s) ≠ PyNone) ∧
     (ev_call e = AfterJoin → after_join (builder s) ≠ PyNone)).
Proof.
  split; intros He.
  - destruct (start_event ts w e He) as (s & c & w' & Hs & _ & _ & Hin).
    exists s. split; [done|]. by eapply start_body_hooks.
  - destruct (stop_event ts w e He) as (s & c & w' & Hs & _ & _ & Hin).
    exists s. split; [done|]. by eapply stop_body_hooks.
Qed.

End more_facts.

(** * More of the module, on concrete bundles *)

Lemma bind_reports_first_offender_witness :
  ∃ a, not_callable a_after_start = not_callable a ∧
    callable (getattr bad_hooks a) = false ∧
    (a ≠ a_thread_factory → getattr bad_hooks a = IsNotCallable) ∧
    ∀ a', attr_position a' < attr_position a →
      callable (getattr bad_hooks a') = true ∨
      (a' ≠ a_thread_factory ∧ getattr bad_hooks a' = IsNone).
Proof.
  exact (bind_reports_first_offender bad_hooks init 0
           (not_callable a_after_start) eq_refl).
Defined.

Lemma start_stop_round_trip_witness :
  let ts := bound [plain_builder; plain_builder] in
  r_state (stop (r_state (start ts 0)) 2) = ts.
Proof.
  refine (proj2 (start_stop_round_trip
                   (bound [plain_builder; plain_builder]) 0 2 2 2
                   eq_refl eq_refl) _).
  repeat constructor.
Defined.


Lemma stop_failure_witness :
  let ts :=
    r_state (start (bound [plain_builder; unjoinable; plain_builder]) 0) in
  r_value (stop ts 3) = inl (UserError 6) ∧
  r_state (stop ts 3) !! 1 = ts !! 1 ∧
  r_state (stop ts 3) !! 0 = ts !! 0.
Proof.
  assert (Ev ThreadJoin 1 (Some 1) (Some (UserError 6))
          ∈ r_events
              (stop (r_state (start (bound [plain_builder; unjoinable;
                                            plain_builder]) 0)) 3)) as H.
  { vm_compute. apply list_elem_of_further, list_elem_of_here. }
  pose proof (stop_failure_stops_walk _ 3 _ (UserError 6) H
                (or_intror eq_refl) eq_refl)
    as (Hv & _ & Hsame & _ & Hbefore & _).
  split; [exact Hv|]. split; [exact Hsame|].
  exact (proj1 (Hbefore 0 (le_n 1))).
Defined.

Lemma thread_start_failure_witness :
  let ts := bound [plain_builder; unstartable; plain_builder] in
  r_value (start ts 0) = inl (UserError 5) ∧
  calls AfterStart (slot_events 1 (r_events (start ts 0))) = [].
Proof.
  assert (Ev ThreadStart 1 (Some 1) (Some (UserError 5))
          ∈ r_events (start (bound [plain_builder; unstartable;
                                    plain_builder]) 0)) as H.
  { vm_compute. do 3 apply list_elem_of_further. apply list_elem_of_here. }
  pose proof (thread_start_failure _ 0 _ (UserError 5) H eq_refl eq_refl)
    as (Hv & Hno & _).
  split; [exact Hv|exact Hno].
Defined.


Lemma retry_skips_started_slots_witness :
  let ts :=
    r_state (start (bound [plain_builder; unstartable; plain_builder]) 0) in
  r_state (start ts 2) !! 0 = ts !! 0 ∧
  slot_events 0 (r_events (start ts 2)) = [].
Proof.
  assert (Ev ThreadStart 1 (Some 1) (Some (UserError 5))
          ∈ r_events (start (bound [plain_builder; unstartable;
                                    plain_builder]) 0)) as H.
  { vm_compute. do 3 apply list_elem_of_further. apply list_elem_of_here. }
  exact (proj1 (retry_skips_started_slots _ 0 _ (UserError 5) 2 H eq_refl)
           0 (le_n 1)).
Defined.
